(** * Antigravity process/port detection: a shallow embedding

    The development follows the three TypeScript sources of the detector:
    - [UnixProcessDetector]   (ps / lsof / netstat output parsing),
    - [WindowsProcessDetector] (wmic / netstat output parsing),
    - [ProcessPortDetector]   (the retrying detection loop and the port probe).

    JavaScript strings are sequences of UTF-16 code units, so a string is a
    [list N] here; the numbers the parsers produce come out of [parseInt] and
    are integral doubles, NaN or an infinity.  Regular expressions of the
    sources are written in a small regex syntax and run by a backtracking
    matcher with the priorities of the ECMAScript matcher (greedy
    quantifiers, left alternative first, leftmost start position). *)

From Stdlib Require Import Ascii String List NArith ZArith Bool Lia Arith.
From Stdlib Require Import Sorting.Sorted.
Import ListNotations.

Set Implicit Arguments.
Local Open Scope N_scope.

(** ** Strings as UTF-16 code units *)

Module JS.

Definition char := N.
Definition jsstring := list char.

(** Text literals of the sources.  A literal of this file is a sequence of
    UTF-8 bytes and a JavaScript string holds UTF-16 code units: [str]
    decodes the one into the other (ASCII text is left as it is). *)
Fixpoint bytes_of (s : String.string) : list N :=
  match s with
  | EmptyString => []
  | String a s' => N_of_ascii a :: bytes_of s'
  end.

Definition utf16_units (cp : N) : jsstring :=
  if cp <? 65536 then [cp]
  else [55296 + (cp - 65536) / 1024; 56320 + (cp - 65536) mod 1024].

Fixpoint utf8_decode (need : nat) (acc : N) (bs : list N) : jsstring :=
  match bs with
  | [] => match need with O => [] | S _ => [65533] end
  | b :: bs' =>
      match need with
      | O =>
          if b <? 128 then b :: utf8_decode 0 0 bs'
          else if b <? 192 then 65533 :: utf8_decode 0 0 bs'
          else if b <? 224 then utf8_decode 1 (b - 192) bs'
          else if b <? 240 then utf8_decode 2 (b - 224) bs'
          else utf8_decode 3 (b - 240) bs'
      | S n =>
          let acc' := acc * 64 + (b - 128) in
          match n with
          | O => utf16_units acc' ++ utf8_decode 0 0 bs'
          | S _ => utf8_decode n acc' bs'
          end
      end
  end.

Definition str (s : String.string) : jsstring := utf8_decode 0 0 (bytes_of s).

Definition LF : char := 10.

(** [WhiteSpace] and [LineTerminator] of ECMAScript: what [trim] strips and
    what the class [\s] accepts. *)
Definition is_space (c : char) : bool :=
  (c =? 9) || (c =? 10) || (c =? 11) || (c =? 12) || (c =? 13) || (c =? 32)
  || (c =? 160) || (c =? 5760)
  || ((8192 <=? c) && (c <=? 8202))
  || (c =? 8232) || (c =? 8233) || (c =? 8239) || (c =? 8287)
  || (c =? 12288) || (c =? 65279).

(** [\d] (no unicode flag): the ten ASCII digits. *)
Definition is_digit (c : char) : bool := (48 <=? c) && (c <=? 57).

(** [.] without the [s] flag: anything but a line terminator. *)
Definition is_line_terminator (c : char) : bool :=
  (c =? 10) || (c =? 13) || (c =? 8232) || (c =? 8233).

Definition any_char (c : char) : bool := negb (is_line_terminator c).

Fixpoint dropWhile (p : char -> bool) (s : jsstring) : jsstring :=
  match s with
  | [] => []
  | c :: s' => if p c then dropWhile p s' else s
  end.

(** [String.prototype.trim] *)
Definition trimStart (s : jsstring) : jsstring := dropWhile is_space s.
Definition trimEnd (s : jsstring) : jsstring := rev (dropWhile is_space (rev s)).
Definition trim (s : jsstring) : jsstring := trimEnd (trimStart s).

(** [s.split('\n')]: the pieces between line feeds; never an empty array. *)
Fixpoint split_on (sep : char) (cur : jsstring) (s : jsstring) : list jsstring :=
  match s with
  | [] => [rev cur]
  | c :: s' =>
      if c =? sep then rev cur :: split_on sep [] s'
      else split_on sep (c :: cur) s'
  end.

Definition split_lines (s : jsstring) : list jsstring := split_on LF [] s.

(** [s.split(/\s+/)]: the pieces between maximal runs of white space; a
    leading or trailing run leaves an empty piece, and the empty string
    gives one empty piece. *)
Fixpoint split_spaces_from (in_sep : bool) (cur : jsstring) (s : jsstring)
  : list jsstring :=
  match s with
  | [] => [rev cur]
  | c :: s' =>
      if is_space c then
        if in_sep then split_spaces_from true cur s'
        else rev cur :: split_spaces_from true [] s'
      else split_spaces_from false (c :: cur) s'
  end.

Definition split_spaces (s : jsstring) : list jsstring :=
  split_spaces_from false [] s.

(** A string in a condition: the empty string is falsy. *)
Definition truthy_string (s : jsstring) : bool :=
  match s with [] => false | _ => true end.

(** ** Numbers produced by [parseInt] *)

(** [parseInt] returns NaN, an integral double (with its sign, so that
    [-0] is there) or an infinity. *)
Inductive number :=
| NaN
| Finite (negative : bool) (magnitude : N)
| Infinity (negative : bool).

Definition num (n : N) : number := Finite false n.

(** Round a natural number to the nearest binary64 value, ties to even;
    [None] when it rounds to infinity. *)
Definition round_to_double (n : N) : option N :=
  let bits := N.size n in
  if bits <=? 53 then Some n
  else
    let e := bits - 53 in
    let q := N.shiftr n e in
    let r := n - N.shiftl q e in
    let half := N.shiftl 1 (e - 1) in
    let q' := if (half <? r) || ((half =? r) && N.odd q) then q + 1 else q in
    let v := N.shiftl q' e in
    if N.shiftl 1 1024 <=? v then None else Some v.

Definition digit_value (c : char) : N := c - 48.

Fixpoint takeWhile (p : char -> bool) (s : jsstring) : jsstring :=
  match s with
  | [] => []
  | c :: s' => if p c then c :: takeWhile p s' else []
  end.

Definition decimal_value (ds : jsstring) : N :=
  fold_left (fun acc c => 10 * acc + digit_value c) ds 0.

(** [parseInt(s, 10)]: leading white space is skipped, then an optional
    sign, then the longest run of decimal digits; NaN when that run is
    empty.  (With radix 10 no [0x] prefix is looked for.) *)
Definition parseInt (s : jsstring) : number :=
  let s1 := trimStart s in
  let '(negative, s2) :=
    match s1 with
    | c :: rest => if c =? 45 then (true, rest)
                   else if c =? 43 then (false, rest)
                   else (false, s1)
    | [] => (false, s1)
    end in
  match takeWhile is_digit s2 with
  | [] => NaN
  | ds => match round_to_double (decimal_value ds) with
          | Some m => Finite negative m
          | None => Infinity negative
          end
  end.

Definition isNaN (x : number) : bool :=
  match x with NaN => true | _ => false end.

(** A number in a condition: [0], [-0] and NaN are falsy. *)
Definition truthy_number (x : number) : bool :=
  match x with
  | NaN => false
  | Finite _ m => negb (m =? 0)
  | Infinity _ => true
  end.

(** [SameValueZero], the equality of [Array.prototype.includes]. *)
Definition same_value_zero (a b : number) : bool :=
  match a, b with
  | NaN, NaN => true
  | Finite s1 m1, Finite s2 m2 =>
      (m1 =? m2) && ((m1 =? 0) || Bool.eqb s1 s2)
  | Infinity s1, Infinity s2 => Bool.eqb s1 s2
  | _, _ => false
  end.

Definition includes (ports : list number) (x : number) : bool :=
  existsb (same_value_zero x) ports.

(** [ports.push(x)] *)
Definition push (ports : list number) (x : number) : list number := ports ++ [x].

Definition to_Z (neg : bool) (m : N) : Z :=
  if neg then (- Z.of_N m)%Z else Z.of_N m.

(** The sign of [a - b] as the sort sees it: a NaN difference counts as
    zero. *)
Definition compare_sub (a b : number) : comparison :=
  match a, b with
  | NaN, _ | _, NaN => Eq
  | Finite s1 m1, Finite s2 m2 => Z.compare (to_Z s1 m1) (to_Z s2 m2)
  | Finite _ _, Infinity s => if s then Gt else Lt
  | Infinity s, Finite _ _ => if s then Lt else Gt
  | Infinity s1, Infinity s2 =>
      if Bool.eqb s1 s2 then Eq else if s1 then Lt else Gt
  end.

(** [arr.sort((a, b) => a - b)], as a stable insertion sort. *)
Fixpoint insert_sorted (x : number) (l : list number) : list number :=
  match l with
  | [] => [x]
  | y :: l' =>
      match compare_sub x y with
      | Lt => x :: l
      | _ => y :: insert_sorted x l'
      end
  end.

Definition sort (l : list number) : list number :=
  fold_left (fun acc x => insert_sorted x acc) l [].

End JS.

(** ** Regular expressions

    The patterns of the sources use literals, character classes, greedy
    [*] and [+] on a class, capture groups, concatenation and one
    alternation.  [rmatch] is the backtracking matcher in
    continuation-passing style: the continuation receives the rest of the
    input and the captures, and [None] makes the matcher try its next
    choice. *)

Module Regex.
Import JS.

Inductive regex :=
| Eps
| Chr (p : char -> bool)
| Star (p : char -> bool)
| Plus (p : char -> bool)
| Seq (r1 r2 : regex)
| Alt (r1 r2 : regex)
| Group (i : nat) (r : regex).

Definition captures := list (nat * jsstring).

(** The part of [s] in front of its suffix [s']. *)
Definition consumed (s s' : jsstring) : jsstring :=
  firstn (length s - length s') s.

Section Matcher.
Variable R : Type.

Fixpoint star_match (p : char -> bool) (s : jsstring)
    (k : jsstring -> option R) : option R :=
  match s with
  | [] => k []
  | c :: s' =>
      if p c then
        match star_match p s' k with
        | Some r => Some r
        | None => k s
        end
      else k s
  end.

Fixpoint rmatch (r : regex) (s : jsstring) (caps : captures)
    (k : jsstring -> captures -> option R) : option R :=
  match r with
  | Eps => k s caps
  | Chr p =>
      match s with
      | c :: s' => if p c then k s' caps else None
      | [] => None
      end
  | Star p => star_match p s (fun s' => k s' caps)
  | Plus p =>
      match s with
      | c :: s' => if p c then star_match p s' (fun s'' => k s'' caps) else None
      | [] => None
      end
  | Seq r1 r2 => rmatch r1 s caps (fun s' caps' => rmatch r2 s' caps' k)
  | Alt r1 r2 =>
      match rmatch r1 s caps k with
      | Some x => Some x
      | None => rmatch r2 s caps k
      end
  | Group i r1 =>
      rmatch r1 s caps (fun s' caps' => k s' ((i, consumed s s') :: caps'))
  end.

End Matcher.

(** What [RegExp.prototype.exec] returns: the start index, the matched
    text (group 0), the capture groups and the input after the match
    (where [lastIndex] points for a global regex). *)
Record MatchResult := {
  index : nat;
  matched : jsstring;
  groups : captures;
  rest : jsstring
}.

Definition match_here (r : regex) (s : jsstring) : option (jsstring * captures) :=
  rmatch r s [] (fun s' caps => Some (s', caps)).

(** The leftmost match: start positions are tried from left to right, the
    end of the input included. *)
Fixpoint exec_at (r : regex) (i : nat) (s : jsstring) : option MatchResult :=
  match match_here r s with
  | Some (s', caps) =>
      Some {| index := i; matched := consumed s s'; groups := caps; rest := s' |}
  | None =>
      match s with
      | [] => None
      | _ :: s' => exec_at r (S i) s'
      end
  end.

(** [s.match(r)] for a regex without the [g] flag. *)
Definition exec (r : regex) (s : jsstring) : option MatchResult := exec_at r 0 s.

(** [m[i]] for [i >= 1]: [None] is [undefined], a group that took no part. *)
Fixpoint lookup (i : nat) (caps : captures) : option jsstring :=
  match caps with
  | [] => None
  | (j, x) :: caps' => if Nat.eqb i j then Some x else lookup i caps'
  end.

Definition group (m : MatchResult) (i : nat) : option jsstring :=
  lookup i (groups m).

(** The value of [m && m[i]] when it is truthy. *)
Definition and_group (m : option MatchResult) (i : nat) : option jsstring :=
  match m with
  | Some m' =>
      match group m' i with
      | Some g => if truthy_string g then Some g else None
      | None => None
      end
  | None => None
  end.

(** The value of [a || b] for two groups. *)
Definition or_group (a b : option jsstring) : option jsstring :=
  match a with
  | Some g => if truthy_string g then Some g else b
  | None => b
  end.

(** [parseInt(v, 10)] for a value that may be [undefined]: the argument is
    converted to a string first. *)
Definition parseInt_value (v : option jsstring) : number :=
  match v with
  | Some s => parseInt s
  | None => parseInt (str "undefined")
  end.

(** Literal text. *)
Definition lit (s : String.string) : regex :=
  fold_right (fun c r => Seq (Chr (N.eqb c)) r) Eps (str s).

(** Literal text under the [i] flag.  Without the [u] flag a character is
    canonicalized by its upper case, and a non-ASCII character is never
    mapped to an ASCII one, so for ASCII text this is ASCII case folding. *)
Definition ascii_upper (c : char) : char :=
  if (97 <=? c) && (c <=? 122) then c - 32 else c.

Definition ci_eq (a b : char) : bool := ascii_upper a =? ascii_upper b.

Definition lit_i (s : String.string) : regex :=
  fold_right (fun c r => Seq (Chr (ci_eq c)) r) Eps (str s).

Fixpoint seq (rs : list regex) : regex :=
  match rs with
  | [] => Eps
  | [r] => r
  | r :: rs' => Seq r (seq rs')
  end.

(** [[=\s]] *)
Definition eq_or_space (c : char) : bool := (c =? 61) || is_space c.

(** [[a-f0-9\-]] under the [i] flag *)
Definition is_token_char (c : char) : bool :=
  ((97 <=? c) && (c <=? 102)) || ((65 <=? c) && (c <=? 70))
  || is_digit c || (c =? 45).

(** [/--extension_server_port[=\s]+(\d+)/] *)
Definition re_extension_port : regex :=
  seq [lit "--extension_server_port"; Plus eq_or_space; Group 1 (Plus is_digit)].

(** [/--csrf_token[=\s]+([a-f0-9\-]+)/i] *)
Definition re_csrf_token : regex :=
  seq [lit_i "--csrf_token"; Plus eq_or_space; Group 1 (Plus is_token_char)].

(** [/ProcessId=(\d+)/] *)
Definition re_process_id : regex :=
  seq [lit "ProcessId="; Group 1 (Plus is_digit)].

(** [/127\.0\.0\.1:(\d+).*\(LISTEN\)/] *)
Definition re_lsof : regex :=
  seq [lit "127.0.0.1:"; Group 1 (Plus is_digit); Star any_char; lit "(LISTEN)"].

(** [/127\.0\.0\.1:(\d+).*LISTEN/] *)
Definition re_netstat : regex :=
  seq [lit "127.0.0.1:"; Group 1 (Plus is_digit); Star any_char; lit "LISTEN"].

(** [/localhost:(\d+).*\(LISTEN\)|localhost:(\d+).*LISTEN/] *)
Definition re_localhost : regex :=
  Alt (seq [lit "localhost:"; Group 1 (Plus is_digit); Star any_char; lit "(LISTEN)"])
      (seq [lit "localhost:"; Group 2 (Plus is_digit); Star any_char; lit "LISTEN"]).

(** [/127\.0\.0\.1:(\d+)\s+0\.0\.0\.0:0\s+LISTENING/g] *)
Definition re_windows_listening : regex :=
  seq [lit "127.0.0.1:"; Group 1 (Plus is_digit); Plus is_space;
       lit "0.0.0.0:0"; Plus is_space; lit "LISTENING"].

End Regex.

(** ** The platform strategy interface *)

Module Platform.
Import JS Regex.

(** What [parseProcessInfo] returns when it is not [null]. *)
Record ProcessInfo := {
  pid : number;
  extensionPort : number;
  csrfToken : jsstring
}.

Record ErrorMessages := {
  processNotFound : jsstring;
  commandNotAvailable : jsstring;
  requirements : list jsstring
}.

(** The shell commands of the strategies.  The sources render them as
    text from a template; the embedding keeps the template and its
    argument:
    - [PsGrep name]: ps aux | grep name | grep -v grep
    - [LsofOrNetstat pid]: lsof -Pan -p pid -i || netstat -tulpn | grep pid
    - [WmicProcess name]: wmic process where name get ProcessId,CommandLine
    - [NetstatFindstr pid]: netstat -ano | findstr pid | findstr LISTENING *)
Inductive command :=
| PsGrep (processName : jsstring)
| LsofOrNetstat (pid : number)
| WmicProcess (processName : jsstring)
| NetstatFindstr (pid : number).

Class IPlatformStrategy := {
  getProcessListCommand : jsstring -> command;
  parseProcessInfo : jsstring -> option ProcessInfo;
  getPortListCommand : number -> command;
  parseListeningPorts : jsstring -> list number;
  getErrorMessages : ErrorMessages
}.

(** [if (!ports.includes(port)) ports.push(port)] *)
Definition push_new (ports : list number) (port : number) : list number :=
  if includes ports port then ports else push ports port.

End Platform.

(** ** UnixProcessDetector *)

Module Unix.
Import JS Regex Platform.

Definition getProcessListCommand (processName : jsstring) : command :=
  PsGrep processName.

Definition parseProcessInfo (stdout : jsstring) : option ProcessInfo :=
  if negb (truthy_string stdout) || (length (trim stdout) =? 0)%nat then None
  else
    let portMatch := exec re_extension_port stdout in
    let tokenMatch := exec re_csrf_token stdout in
    let lines := split_lines (trim stdout) in
    match lines with
    | [] => None
    | firstLine :: _ =>
        let columns := split_spaces (trim firstLine) in
        if (length columns <? 2)%nat then None
        else
          let pidStr := nth 1 columns [] in
          let pid := parseInt pidStr in
          if isNaN pid then None
          else
            match and_group tokenMatch 1 with
            | None => None
            | Some csrfToken =>
                let extensionPort :=
                  match and_group portMatch 1 with
                  | Some p => parseInt p
                  | None => num 0
                  end in
                Some {| pid := pid;
                        extensionPort := extensionPort;
                        csrfToken := csrfToken |}
            end
    end.

Definition getPortListCommand (pid : number) : command := LsofOrNetstat pid.

(** One turn of the loop over the lines. *)
Definition scan_line (ports : list number) (line : jsstring) : list number :=
  let lsofMatch := exec re_lsof line in
  match and_group lsofMatch 1 with
  | Some g => push_new ports (parseInt g)
  | None =>
      let netstatMatch := exec re_netstat line in
      match and_group netstatMatch 1 with
      | Some g => push_new ports (parseInt g)
      | None =>
          let localhostMatch := exec re_localhost line in
          match localhostMatch with
          | Some m =>
              push_new ports (parseInt_value (or_group (group m 1) (group m 2)))
          | None => ports
          end
      end
  end.

Definition parseListeningPorts (stdout : jsstring) : list number :=
  let ports := [] in
  if negb (truthy_string stdout) || (length (trim stdout) =? 0)%nat then ports
  else
    let lines := split_lines (trim stdout) in
    sort (fold_left scan_line lines ports).

Definition getErrorMessages (platform : jsstring) : ErrorMessages :=
  let processName :=
    if list_eq_dec N.eq_dec platform (str "darwin")
    then str "language_server_macos"
    else str "language_server_linux" in
  {| processNotFound := str "未找到 language_server 进程";
     commandNotAvailable := str "ps/lsof 命令不可用,请检查系统环境";
     requirements :=
       [ str "Antigravity 正在运行";
         processName ++ str " 进程存在";
         str "系统有足够权限执行 ps 和 lsof 命令" ] |}.

#[export] Instance UnixProcessDetector (platform : jsstring) : IPlatformStrategy := {
  getProcessListCommand := Unix.getProcessListCommand;
  parseProcessInfo := Unix.parseProcessInfo;
  getPortListCommand := Unix.getPortListCommand;
  parseListeningPorts := Unix.parseListeningPorts;
  getErrorMessages := Unix.getErrorMessages platform
}.

End Unix.

(** ** WindowsProcessDetector *)

Module Windows.
Import JS Regex Platform.

Definition getProcessListCommand (processName : jsstring) : command :=
  WmicProcess processName.

Definition parseProcessInfo (stdout : jsstring) : option ProcessInfo :=
  let portMatch := exec re_extension_port stdout in
  let tokenMatch := exec re_csrf_token stdout in
  let pidMatch := exec re_process_id stdout in
  match and_group pidMatch 1 with
  | None => None
  | Some pidStr =>
      match and_group tokenMatch 1 with
      | None => None
      | Some csrfToken =>
          let pid := parseInt pidStr in
          let extensionPort :=
            match and_group portMatch 1 with
            | Some p => parseInt p
            | None => num 0
            end in
          Some {| pid := pid;
                  extensionPort := extensionPort;
                  csrfToken := csrfToken |}
      end
  end.

Definition getPortListCommand (pid : number) : command := NetstatFindstr pid.

(** The [while ((match = portRegex.exec(stdout)) !== null)] loop.  The
    regex is global: each [exec] resumes where the previous match ended.
    [fuel] bounds the number of turns; [None] means the bound was reached
    before [exec] returned [null]. *)
Fixpoint exec_loop (fuel : nat) (input : jsstring) (ports : list number)
  : option (list number) :=
  match fuel with
  | O => None
  | S fuel' =>
      match exec re_windows_listening input with
      | None => Some ports
      | Some m =>
          let port := parseInt_value (group m 1) in
          exec_loop fuel' (rest m) (push_new ports port)
      end
  end.

(** Every match takes at least one character, so [length stdout + 1] turns
    are enough ([exec_loop_terminates] below); the [None] branch is never
    taken. *)
Definition parseListeningPorts (stdout : jsstring) : list number :=
  match exec_loop (S (length stdout)) stdout [] with
  | Some ports => sort ports
  | None => []
  end.

Definition getErrorMessages : ErrorMessages :=
  {| processNotFound := str "未找到 language_server 进程";
     commandNotAvailable := str "wmic 命令不可用,请检查系统环境";
     requirements :=
       [ str "Antigravity 正在运行";
         str "language_server_windows_x64.exe 进程存在";
         str "系统有足够权限执行 wmic 和 netstat 命令" ] |}.

#[export] Instance WindowsProcessDetector : IPlatformStrategy := {
  getProcessListCommand := Windows.getProcessListCommand;
  parseProcessInfo := Windows.parseProcessInfo;
  getPortListCommand := Windows.getPortListCommand;
  parseListeningPorts := Windows.parseListeningPorts;
  getErrorMessages := Windows.getErrorMessages
}.

End Windows.

(** ** ProcessPortDetector: effects

    The detector talks to the outside through four primitives: running a
    shell command ([execAsync]), an HTTPS request, [setTimeout] and the
    console.  A program is a tree of such requests; [Throw] is a rejected
    promise or a thrown error, [try_catch] the [try]/[catch] statement. *)

Module Effects.
Import JS Platform.

(** An [Error] object; only its message is read. *)
Record Error := { message : jsstring }.

(** The options of the probe request (the fixed JSON body and the
    content headers are left out). *)
Record RequestOptions := {
  hostname : jsstring;
  port : number;
  path : jsstring;
  method : jsstring;
  header_connect_protocol_version : jsstring;
  header_x_codeium_csrf_token : jsstring;
  rejectUnauthorized : bool;
  timeout : N
}.

(** How a request ends: the response callback with a status code, the
    ['error'] event, the ['timeout'] event, or an error thrown by
    [https.request] itself before anything is sent (Node throws
    [ERR_SOCKET_BAD_PORT] for a port outside 0..65535). *)
Inductive RequestOutcome :=
| Response (statusCode : N)
| RequestError
| RequestTimeout
| RequestThrown (error : Error).

Inductive level := ConsoleLog | ConsoleWarn | ConsoleError.

(** The console lines, one constructor per template of the source with the
    values it interpolates. *)
Inductive entry :=
| MsgDetecting (platformName : jsstring) (attempt maxRetries : nat)
| MsgAttemptWarning (attempt : nat) (reason : jsstring)
| MsgFoundProcess
| MsgPid (pid : number)
| MsgExtensionPort (extensionPort : number)
| MsgCsrfToken (prefix : jsstring)
| MsgFetchingPorts (pid : number)
| MsgFoundPorts (count : nat) (ports : list number)
| MsgTestingPorts
| MsgAttemptSucceeded (attempt : nat)
| MsgApiPort (connectPort : number)
| MsgAttemptFailed (attempt : nat) (errorMsg : jsstring)
| MsgCauseTimeout
| MsgCauseUnavailable (commandNotAvailable : jsstring)
| MsgWaiting (retryDelay : N)
| MsgAllFailed (maxRetries : nat)
| MsgPleaseEnsure
| MsgRequirement (number : nat) (req : jsstring)
| MsgFetchPortsFailed (error : Error)
| MsgTestPort (port : number)
| MsgPortOk (port : number)
| MsgPortFailed (port : number).

Inductive event : Type -> Type :=
| ExecAsync (cmd : command) (timeout : N) : event (Error + jsstring)
| HttpsRequest (options : RequestOptions) : event RequestOutcome
| SetTimeout (delay : N) : event unit
| Console (lvl : level) (msg : entry) : event unit.

Inductive prog (A : Type) : Type :=
| Ret (a : A)
| Throw (e : Error)
| Vis (X : Type) (ev : event X) (k : X -> prog A).

Arguments Ret {A} a.
Arguments Throw {A} e.
Arguments Vis {A X} ev k.

Fixpoint bind {A B : Type} (p : prog A) (f : A -> prog B) : prog B :=
  match p with
  | Ret a => f a
  | Throw e => Throw e
  | Vis ev k => Vis ev (fun x => bind (k x) f)
  end.

Fixpoint try_catch {A : Type} (p : prog A) (handler : Error -> prog A) : prog A :=
  match p with
  | Ret a => Ret a
  | Throw e => handler e
  | Vis ev k => Vis ev (fun x => try_catch (k x) handler)
  end.

Definition trigger {X : Type} (ev : event X) : prog X := Vis ev (fun x => Ret x).

Declare Scope prog_scope.
Delimit Scope prog_scope with prog.
Notation "x <- p ;; q" := (bind p (fun x => q))
  (at level 61, p at next level, right associativity) : prog_scope.
Notation "p ;; q" := (bind p (fun _ => q))
  (at level 61, right associativity) : prog_scope.

(** [await execAsync(command, { timeout })], keeping [stdout]. *)
Definition execAsync (cmd : command) (timeout : N) : prog jsstring :=
  bind (trigger (ExecAsync cmd timeout))
       (fun r => match r with
                 | inl err => Throw err
                 | inr stdout => Ret stdout
                 end).

Definition console (lvl : level) (msg : entry) : prog unit :=
  trigger (Console lvl msg).

(** [await new Promise(resolve => setTimeout(resolve, delay))] *)
Definition sleep (delay : N) : prog unit := trigger (SetTimeout delay).

(** *** Running a program against an environment *)

(** One request with its answer. *)
Inductive observation :=
| Observed (X : Type) (ev : event X) (answer : X).

Arguments Observed {X} ev answer.

Definition trace := list observation.

Section Run.
Variable World : Type.
Variable handle : forall X : Type, event X -> World -> X * World.

Fixpoint run {A : Type} (p : prog A) (w : World) : (Error + A) * World * trace :=
  match p with
  | Ret a => (inr a, w, [])
  | Throw e => (inl e, w, [])
  | Vis ev k =>
      let '(x, w1) := handle ev w in
      let '(r, w2, t) := run (k x) w1 in
      (r, w2, Observed ev x :: t)
  end.

End Run.

End Effects.

(** ** ProcessPortDetector *)

Module Detector.
Import JS Platform Effects.
Local Open Scope prog_scope.

(** The result of a successful detection. *)
Record AntigravityProcessInfo := {
  extensionPort : number;
  connectPort : number;
  csrfToken : jsstring
}.

(** [hay.includes(needle)] on strings *)
Fixpoint starts_with (needle hay : jsstring) : bool :=
  match needle, hay with
  | [], _ => true
  | _ :: _, [] => false
  | a :: needle', b :: hay' => (a =? b) && starts_with needle' hay'
  end.

Fixpoint includes_text (needle hay : jsstring) : bool :=
  starts_with needle hay
  || match hay with
     | [] => false
     | _ :: hay' => includes_text needle hay'
     end.

(** [s.substring(0, n)] *)
Definition substring0 (n : nat) (s : jsstring) : jsstring := firstn n s.

(** [error?.message || String(error)] for an [Error] object *)
Definition error_text (error : Error) : jsstring :=
  if truthy_string (message error) then message error else str "Error".

(** [errorMessages.requirements.forEach((req, index) => console.error(...))] *)
Fixpoint log_requirements (index : nat) (reqs : list jsstring) : prog unit :=
  match reqs with
  | [] => Ret tt
  | req :: reqs' =>
      console ConsoleError (MsgRequirement (index + 1) req) ;;
      log_requirements (S index) reqs'
  end.

Section ProcessPortDetector.

(** The fields set by the constructor.  [PlatformDetector] chooses the
    strategy, the process name and the platform name; the detector only
    reads them. *)
Context {platformStrategy : IPlatformStrategy}.
Variable processName : jsstring.
Variable platformName : jsstring.

Definition testPortConnectivity (port : number) (csrfToken : jsstring) : prog bool :=
  let options :=
    {| hostname := str "127.0.0.1";
       Effects.port := port;
       path := str "/exa.language_server_pb.LanguageServerService/GetUnleashData";
       method := str "POST";
       header_connect_protocol_version := str "1";
       header_x_codeium_csrf_token := csrfToken;
       rejectUnauthorized := false;
       timeout := 2000 |} in
  outcome <- trigger (HttpsRequest options) ;;
  match outcome with
  | Response statusCode => Ret (statusCode =? 200)
  | RequestError => Ret false
  | RequestTimeout => Ret false
  | RequestThrown error => Throw error
  end.

Fixpoint findWorkingPort (ports : list number) (csrfToken : jsstring)
  : prog (option number) :=
  match ports with
  | [] => Ret None
  | port :: ports' =>
      console ConsoleLog (MsgTestPort port) ;;
      isWorking <- testPortConnectivity port csrfToken ;;
      if isWorking then
        console ConsoleLog (MsgPortOk port) ;;
        Ret (Some port)
      else
        console ConsoleLog (MsgPortFailed port) ;;
        findWorkingPort ports' csrfToken
  end.

Definition getProcessListeningPorts (pid : number) : prog (list number) :=
  try_catch
    (let command := getPortListCommand pid in
     stdout <- execAsync command 3000 ;;
     let ports := parseListeningPorts stdout in
     Ret ports)
    (fun error =>
       console ConsoleError (MsgFetchPortsFailed error) ;;
       Ret []).

(** [!connectPort] for a [number | null] *)
Definition falsy_port (connectPort : option number) : bool :=
  match connectPort with
  | None => true
  | Some p => negb (truthy_number p)
  end.

(** The body of the [try] block of one attempt: it either reaches the
    [return] with the credentials or throws. *)
Definition attempt_body (attempt maxRetries : nat) : prog AntigravityProcessInfo :=
  let errorMessages := getErrorMessages in
  console ConsoleLog (MsgDetecting platformName attempt maxRetries) ;;
  let command := getProcessListCommand processName in
  stdout <- execAsync command 5000 ;;
  let processInfo := parseProcessInfo stdout in
  match processInfo with
  | None =>
      console ConsoleWarn (MsgAttemptWarning attempt (processNotFound errorMessages)) ;;
      Throw {| message := processNotFound errorMessages |}
  | Some info =>
      let pid := Platform.pid info in
      let extensionPort := Platform.extensionPort info in
      let csrfToken := Platform.csrfToken info in
      console ConsoleLog MsgFoundProcess ;;
      console ConsoleLog (MsgPid pid) ;;
      console ConsoleLog (MsgExtensionPort extensionPort) ;;
      console ConsoleLog (MsgCsrfToken (substring0 8 csrfToken)) ;;
      console ConsoleLog (MsgFetchingPorts pid) ;;
      listeningPorts <- getProcessListeningPorts pid ;;
      if (length listeningPorts =? 0)%nat then
        console ConsoleWarn (MsgAttemptWarning attempt (str "进程未监听任何端口")) ;;
        Throw {| message := str "进程未监听任何端口" |}
      else
        console ConsoleLog (MsgFoundPorts (length listeningPorts) listeningPorts) ;;
        console ConsoleLog MsgTestingPorts ;;
        connectPort <- findWorkingPort listeningPorts csrfToken ;;
        match connectPort with
        | Some p =>
            if truthy_number p then
              console ConsoleLog (MsgAttemptSucceeded attempt) ;;
              console ConsoleLog (MsgApiPort p) ;;
              Ret {| extensionPort := extensionPort;
                     connectPort := p;
                     csrfToken := csrfToken |}
            else
              console ConsoleWarn (MsgAttemptWarning attempt (str "所有端口测试均失败")) ;;
              Throw {| message := str "无法找到可用的 API 端口" |}
        | None =>
            console ConsoleWarn (MsgAttemptWarning attempt (str "所有端口测试均失败")) ;;
            Throw {| message := str "无法找到可用的 API 端口" |}
        end
  end.

(** The [catch] block of an attempt. *)
Definition attempt_catch (attempt : nat) (error : Error) : prog unit :=
  let errorMessages := getErrorMessages in
  let errorMsg := error_text error in
  console ConsoleError (MsgAttemptFailed attempt errorMsg) ;;
  if includes_text (str "timeout") errorMsg then
    console ConsoleError MsgCauseTimeout
  else if includes_text (str "not found") errorMsg
          || includes_text (str "not recognized") errorMsg then
    console ConsoleError (MsgCauseUnavailable (commandNotAvailable errorMessages))
  else Ret tt.

(** The statements after the [for] loop. *)
Definition exhausted (maxRetries : nat) : prog (option AntigravityProcessInfo) :=
  let errorMessages := getErrorMessages in
  console ConsoleError (MsgAllFailed maxRetries) ;;
  console ConsoleError MsgPleaseEnsure ;;
  log_requirements 0 (requirements errorMessages) ;;
  Ret None.

(** The [for (let attempt = 1; attempt <= maxRetries; attempt++)] loop, from
    the turn numbered [attempt] on; [remaining] is the number of turns
    left, [maxRetries - attempt + 1]. *)
Fixpoint attempts_from (maxRetries : nat) (retryDelay : N)
    (remaining attempt : nat) : prog (option AntigravityProcessInfo) :=
  match remaining with
  | O => exhausted maxRetries
  | S remaining' =>
      returned <-
        try_catch
          (info <- attempt_body attempt maxRetries ;; Ret (Some info))
          (fun error => attempt_catch attempt error ;; Ret None) ;;
      match returned with
      | Some info => Ret (Some info)
      | None =>
          (if (attempt <? maxRetries)%nat then
             console ConsoleLog (MsgWaiting retryDelay) ;;
             sleep retryDelay
           else Ret tt) ;;
          attempts_from maxRetries retryDelay remaining' (S attempt)
      end
  end.

Definition detectProcessInfo (maxRetries : nat) (retryDelay : N)
  : prog (option AntigravityProcessInfo) :=
  attempts_from maxRetries retryDelay maxRetries 1.

End ProcessPortDetector.

End Detector.

(** ** Specification vocabulary *)

Module Spec.
Import JS Regex Platform Effects Detector.

(** *** What a regex matches

    [matches r x caps caps']: the regex [r] can match exactly the text [x],
    turning the captures [caps] into [caps']. *)
Inductive matches : regex -> jsstring -> captures -> captures -> Prop :=
| matches_eps caps : matches Eps [] caps caps
| matches_chr p c caps : p c = true -> matches (Chr p) [c] caps caps
| matches_star p x caps :
    Forall (fun c => p c = true) x -> matches (Star p) x caps caps
| matches_plus p x caps :
    x <> [] -> Forall (fun c => p c = true) x -> matches (Plus p) x caps caps
| matches_seq r1 r2 x1 x2 caps caps1 caps2 :
    matches r1 x1 caps caps1 -> matches r2 x2 caps1 caps2 ->
    matches (Seq r1 r2) (x1 ++ x2) caps caps2
| matches_alt_l r1 r2 x caps caps' :
    matches r1 x caps caps' -> matches (Alt r1 r2) x caps caps'
| matches_alt_r r1 r2 x caps caps' :
    matches r2 x caps caps' -> matches (Alt r1 r2) x caps caps'
| matches_group i r x caps caps' :
    matches r x caps caps' -> matches (Group i r) x caps ((i, x) :: caps').

(** [occurs r s]: some part of [s] is matched by [r]. *)
Definition occurs (r : regex) (s : jsstring) : Prop :=
  exists before x after caps,
    s = before ++ x ++ after /\ matches r x [] caps.

(** [needle] is a part of [hay]. *)
Definition substring_of (needle hay : jsstring) : Prop :=
  exists before after, hay = before ++ needle ++ after.

(** The same, up to ASCII case. *)
Definition substring_ci (needle hay : jsstring) : Prop :=
  exists before x after,
    hay = before ++ x ++ after /\ Forall2 (fun a b => ci_eq a b = true) needle x.

(** Every capture group of [r] has the form [(\d+)]. *)
Fixpoint digit_groups (r : regex) : Prop :=
  match r with
  | Seq r1 r2 | Alt r1 r2 => digit_groups r1 /\ digit_groups r2
  | Group _ r1 => r1 = Plus is_digit
  | _ => True
  end.

Definition digits (x : jsstring) : Prop :=
  x <> [] /\ Forall (fun c => is_digit c = true) x.

Definition digit_captures (caps : captures) : Prop :=
  Forall (fun ix => digits (snd ix)) caps.

(** *** Port numbers and their order *)

(** What [parseInt] makes of a run of digits: a non-negative integer or
    [+Infinity]. *)
Definition is_port (x : number) : Prop :=
  match x with
  | Finite false _ | Infinity false => True
  | _ => False
  end.

(** [a < b] as the comparison function of the sort decides it. *)
Definition number_lt (a b : number) : Prop := compare_sub a b = Lt.

(** Distinct, in ascending order. *)
Definition ascending (l : list number) : Prop := StronglySorted number_lt l.

(** *** The fields of the process information

    The specification describes [parseProcessInfo] field by field: a pid
    (second column of the first line on unix, the [ProcessId=] field on
    windows), the CSRF token, the declared port with its default.  These
    definitions follow that description; [unix_process_info] and
    [windows_process_info] below relate them to the parsers. *)

Definition found_token (rawOutput : jsstring) : option jsstring :=
  and_group (exec re_csrf_token rawOutput) 1.

Definition declared_port (rawOutput : jsstring) : number :=
  match and_group (exec re_extension_port rawOutput) 1 with
  | Some p => parseInt p
  | None => num 0
  end.

Definition second_column (line : jsstring) : option jsstring :=
  match split_spaces (trim line) with
  | _ :: column :: _ => Some column
  | _ => None
  end.

Definition first_line (rawOutput : jsstring) : jsstring :=
  hd [] (split_lines (trim rawOutput)).

Definition unix_pid (rawOutput : jsstring) : option number :=
  match second_column (first_line rawOutput) with
  | Some pidStr => if isNaN (parseInt pidStr) then None else Some (parseInt pidStr)
  | None => None
  end.

Definition windows_pid (rawOutput : jsstring) : option number :=
  option_map parseInt (and_group (exec re_process_id rawOutput) 1).

Definition process_info (pid : option number) (rawOutput : jsstring)
  : option ProcessInfo :=
  match pid, found_token rawOutput with
  | Some pid, Some token =>
      Some {| Platform.pid := pid;
              Platform.extensionPort := declared_port rawOutput;
              Platform.csrfToken := token |}
  | _, _ => None
  end.

(** Lines put together into one output, a line feed between two lines. *)
Fixpoint join_lines (lines : list jsstring) : jsstring :=
  match lines with
  | [] => []
  | [line] => line
  | line :: lines' => line ++ LF :: join_lines lines'
  end.

(** A line of process-lister output, and the same split in two. *)
Definition ps_line : jsstring :=
  str "user 4412 0.0 0.1 ... /opt/x/language_server_linux --extension_server_port=2873 --csrf_token=ab12cd34-ef56".
Definition ps_line_head : jsstring :=
  str "user 4412 0.0 0.1 ... /opt/x/language_server_linux".
Definition ps_line_tail : jsstring :=
  str "  --extension_server_port=2873 --csrf_token=ab12cd34-ef56".
Definition ps_line_no_token : jsstring :=
  str "user 4412 0.0 0.1 ... /opt/x/language_server_linux --extension_server_port=2873".
Definition wmic_no_pid : jsstring :=
  str "CommandLine=language_server_windows_x64.exe --extension_server_port=2873 --csrf_token=ab12cd34-ef56".

(** Listening lines in the layouts of lsof, of netstat on linux and of
    netstat on windows. *)
Definition lsof_layout : jsstring :=
  str "language_ 1234 user  10u  IPv4 0x1f2e 0t0  TCP 127.0.0.1:2873 (LISTEN)".
Definition windows_layout : jsstring :=
  str "  TCP    127.0.0.1:2873         0.0.0.0:0              LISTENING       4412".

(** Two lines of socket-lister output. *)
Definition listen_8000 : jsstring := str "TCP 127.0.0.1:8000 (LISTEN)".
Definition listen_9001 : jsstring := str "TCP 127.0.0.1:9001 (LISTEN)".



(** [ports] as the parsers build it: port numbers, none twice. *)
Definition port_set (ports : list number) : Prop :=
  Forall is_port ports /\ NoDup ports.

(** *** What a run did *)

(** The requests of a trace, the console lines left out except the line
    that opens an attempt. *)
Inductive step :=
| AttemptStarted (attempt : nat)
| Executed (cmd : command) (timeout : N) (answer : Error + jsstring)
| Probed (options : RequestOptions) (outcome : RequestOutcome)
| Delayed (delay : N).

Definition step_of (o : observation) : list step :=
  match o with
  | Observed ev answer =>
      match ev in event X return X -> list step with
      | ExecAsync cmd t => fun a => [Executed cmd t a]
      | HttpsRequest options => fun a => [Probed options a]
      | SetTimeout delay => fun _ => [Delayed delay]
      | Console _ (MsgDetecting _ attempt _) => fun _ => [AttemptStarted attempt]
      | Console _ _ => fun _ => []
      end answer
  end.

Definition steps (t : trace) : list step := flat_map step_of t.

(** The attempts started, by number. *)
Definition attempts_of (ss : list step) : list nat :=
  flat_map (fun s => match s with AttemptStarted n => [n] | _ => [] end) ss.

Definition attempts (t : trace) : list nat := attempts_of (steps t).

(** The runs of the process-listing command (the 5-second [execAsync]). *)
Definition process_listings_of (ss : list step) : list (command * (Error + jsstring)) :=
  flat_map (fun s => match s with
                     | Executed cmd 5000 a => [(cmd, a)]
                     | _ => []
                     end) ss.

Definition process_listings (t : trace) : list (command * (Error + jsstring)) :=
  process_listings_of (steps t).

(** The runs of the port-listing command (the 3-second [execAsync]). *)
Definition port_listings_of (ss : list step) : list (command * (Error + jsstring)) :=
  flat_map (fun s => match s with
                     | Executed cmd 3000 a => [(cmd, a)]
                     | _ => []
                     end) ss.

Definition port_listings (t : trace) : list (command * (Error + jsstring)) :=
  port_listings_of (steps t).

(** The inter-attempt delays. *)
Definition delays_of (ss : list step) : list N :=
  flat_map (fun s => match s with Delayed d => [d] | _ => [] end) ss.

Definition delays (t : trace) : list N := delays_of (steps t).

(** The probes, with their outcomes. *)
Definition probes_of (ss : list step) : list (RequestOptions * RequestOutcome) :=
  flat_map (fun s => match s with Probed o r => [(o, r)] | _ => [] end) ss.

Definition probes (t : trace) : list (RequestOptions * RequestOutcome) :=
  probes_of (steps t).


Definition outcomes (t : trace) : list RequestOutcome :=
  map snd (probes t).

(** Attempts and delays in the order they happened. *)
Inductive mark := Attempt (n : nat) | Delay (d : N).

Definition marks_of (ss : list step) : list mark :=
  flat_map (fun s => match s with
                     | AttemptStarted n => [Attempt n]
                     | Delayed d => [Delay d]
                     | _ => []
                     end) ss.

Definition marks (t : trace) : list mark := marks_of (steps t).

(** The options [testPortConnectivity] builds for a port and a token. *)
Definition probe_options (p : number) (csrfToken : jsstring) : RequestOptions :=
  {| hostname := str "127.0.0.1";
     port := p;
     path := str "/exa.language_server_pb.LanguageServerService/GetUnleashData";
     method := str "POST";
     header_connect_protocol_version := str "1";
     header_x_codeium_csrf_token := csrfToken;
     rejectUnauthorized := false;
     timeout := 2000 |}.

(** The step of probing [p] with outcome [o]. *)
Definition probe_step (csrfToken : jsstring) (po : number * RequestOutcome) : step :=
  Probed (probe_options (fst po) csrfToken) (snd po).

(** A probe that came back without status 200: another status, the
    ['error'] event or the ['timeout'] event. *)
Definition refused (po : number * RequestOutcome) : Prop :=
  match snd po with
  | Response statusCode => statusCode <> 200
  | RequestError | RequestTimeout => True
  | RequestThrown _ => False
  end.

(** A probe that makes its attempt succeed: status 200 on a port that
    passes the [!connectPort] test of the caller. *)
Definition accepted (pr : RequestOptions * RequestOutcome) : Prop :=
  snd pr = Response 200 /\ truthy_number (port (fst pr)) = true.

Definition none_accepted (ss : list step) : Prop :=
  Forall (fun pr => ~ accepted pr) (probes_of ss).

(** The marks of [k] failed attempts in a row, the first numbered
    [attempt]: each is followed by a delay unless it is attempt number
    [maxRetries]. *)
Fixpoint failed_marks (maxRetries : nat) (retryDelay : N) (k attempt : nat)
  : list mark :=
  match k with
  | O => []
  | S k' =>
      Attempt attempt
      :: (if (attempt <? maxRetries)%nat then [Delay retryDelay] else [])
      ++ failed_marks maxRetries retryDelay k' (S attempt)
  end.

(** [Attempt 1; Delay d; Attempt 2; Delay d; ...; Attempt n]. *)
Definition alternating (retryDelay : N) (n : nat) : list mark :=
  match n with
  | O => []
  | S n' =>
      flat_map (fun i => [Attempt i; Delay retryDelay]) (List.seq 1 n')
      ++ [Attempt n]
  end.

(** *** All runs of a program

    [wp p Q]: whatever the environment answers, the run of [p] ends with a
    result [r] and a trace [t] such that [Q r t]. *)
Fixpoint wp {A : Type} (p : prog A) (Q : Error + A -> trace -> Prop) : Prop :=
  match p with
  | Ret a => Q (inr a) []
  | Throw e => Q (inl e) []
  | Vis ev k => forall x, wp (k x) (fun r t => Q r (Observed ev x :: t))
  end.

(** *** A scripted environment

    The commands are answered from a list, in order (a failure once the
    list is used up); a probe is answered by a function of its port. *)
Definition script : Type := list (Error + jsstring) * (number -> RequestOutcome).

Definition play (X : Type) (ev : event X) (w : script) : X * script :=
  match ev in event X return X * script with
  | ExecAsync _ _ =>
      match fst w with
      | answer :: answers => (answer, (answers, snd w))
      | [] => (inl {| message := str "Command failed" |}, w)
      end
  | HttpsRequest options => (snd w (port options), w)
  | SetTimeout _ => (tt, w)
  | Console _ _ => (tt, w)
  end.

(** Only port 9001 answers with status 200. *)
Definition only_9001 (p : number) : RequestOutcome :=
  if same_value_zero p (num 9001) then Response 200 else RequestError.

(** The same on Node: the request call throws for a port that is not an
    integer of 0..65535. *)
Definition legal_port (p : number) : bool :=
  match p with
  | Finite false m => m <=? 65535
  | _ => false
  end.

Definition bad_port : Error :=
  {| message := str "Port should be >= 0 and < 65536. Received type number." |}.

Definition node_only_9001 (p : number) : RequestOutcome :=
  if legal_port p then only_9001 p else RequestThrown bad_port.

(** Every port answers with status 200. *)
Definition always_200 (p : number) : RequestOutcome := Response 200.

(** The server is there and the socket-lister prints port 0. *)
Definition script_port_zero : script :=
  ([inr ps_line; inr (str "TCP 127.0.0.1:0 (LISTEN)")], always_200).

(** What a run of [findWorkingPort] looks like: the candidates are probed
    in order; either all were refused and the result is [null], or the
    last probe answered 200 and its port is the result, or the request
    call of the last probe threw and that error is thrown on.  In the last
    two cases the candidates [after] are not contacted. *)
Definition probing (ports : list number) (csrfToken : jsstring)
    (r : Error + option number) (ss : list step) : Prop :=
  exists tried : list (number * RequestOutcome),
    ss = map (probe_step csrfToken) tried
    /\ ((r = inr None /\ map fst tried = ports /\ Forall refused tried)
        \/ (exists before p after,
               r = inr (Some p)
               /\ ports = map fst before ++ p :: after
               /\ tried = before ++ [(p, Response 200)]
               /\ Forall refused before)
        \/ (exists before p after error,
               r = inl error
               /\ ports = map fst before ++ p :: after
               /\ tried = before ++ [(p, RequestThrown error)]
               /\ Forall refused before)).

(** The candidate ports an answer of the port-listing command gives. *)
Definition candidates {strategy : IPlatformStrategy} (answer : Error + jsstring)
  : list number :=
  match answer with
  | inl _ => []
  | inr stdout => parseListeningPorts stdout
  end.

Definition no_listening_ports : Error := {| message := str "进程未监听任何端口" |}.

Section Shapes.
Context {platformStrategy : IPlatformStrategy}.
Variable processName : jsstring.

(** The steps of a successful attempt, and the credentials it returns. *)
Definition successful_attempt (attempt : nat) (c : AntigravityProcessInfo)
    (ss : list step) : Prop :=
  exists stdout info answer failed after,
    ss = AttemptStarted attempt
         :: Executed (getProcessListCommand processName) 5000 (inr stdout)
         :: Executed (getPortListCommand (pid info)) 3000 answer
         :: map (probe_step (csrfToken c)) failed
         ++ [Probed (probe_options (connectPort c) (csrfToken c)) (Response 200)]
    /\ parseProcessInfo stdout = Some info
    /\ extensionPort c = Platform.extensionPort info
    /\ csrfToken c = Platform.csrfToken info
    /\ candidates answer = map fst failed ++ connectPort c :: after
    /\ Forall refused failed
    /\ truthy_number (connectPort c) = true.

(** The steps of a failed attempt. *)
Definition failed_attempt (attempt : nat) (ss : list step) : Prop :=
  exists rest,
    ss = AttemptStarted attempt :: rest
    /\ marks_of rest = []
    /\ none_accepted rest.

(** What a run of the [try] block of an attempt looks like: it returns
    from a successful attempt, or throws from a failed one, with the
    'no listening ports' error when the port-listing step gave no
    candidate. *)
Definition attempt_outcome (attempt : nat)
    (r : Error + AntigravityProcessInfo) (ss : list step) : Prop :=
  match r with
  | inr c => successful_attempt attempt c ss
  | inl e =>
      failed_attempt attempt ss
      /\ forall cmd answer,
           In (cmd, answer) (port_listings_of ss) ->
           candidates answer = [] -> e = no_listening_ports
  end.

(** The same for the whole [try]/[catch] statement of a turn: nothing is
    thrown out of it. *)
Definition turn_outcome (attempt : nat)
    (r : Error + option AntigravityProcessInfo) (ss : list step) : Prop :=
  match r with
  | inr (Some c) => successful_attempt attempt c ss
  | inr None => failed_attempt attempt ss
  | inl _ => False
  end.

(** The whole loop, from the turn numbered [attempt] with [remaining]
    turns left. *)
Definition loop_outcome (maxRetries : nat) (retryDelay : N)
    (remaining attempt : nat)
    (r : Error + option AntigravityProcessInfo) (ss : list step) : Prop :=
  match r with
  | inr (Some c) =>
      exists k s1 s2,
        (k < remaining)%nat
        /\ ss = s1 ++ s2
        /\ marks_of s1 = failed_marks maxRetries retryDelay k attempt
        /\ none_accepted s1
        /\ successful_attempt (attempt + k) c s2
  | inr None =>
      marks_of ss = failed_marks maxRetries retryDelay remaining attempt
      /\ none_accepted ss
  | inl _ => False
  end.

End Shapes.

(** The attempts and the delays among some marks. *)
Definition marked_attempts (ms : list mark) : list nat :=
  flat_map (fun m => match m with Attempt n => [n] | Delay _ => [] end) ms.

Definition marked_delays (ms : list mark) : list N :=
  flat_map (fun m => match m with Attempt _ => [] | Delay d => [d] end) ms.

(** *** Scripts of the examples *)

Definition linux : IPlatformStrategy := Unix.UnixProcessDetector (str "linux").

(** The process-lister finds nothing at first, then the server with its
    two ports. *)
Definition script_retry : script :=
  ([inr []; inr ps_line; inr (join_lines [listen_9001; listen_8000])], only_9001).

(** The server is there, and the socket-lister prints nothing, three times. *)
Definition script_no_ports : script :=
  ([inr ps_line; inr []; inr ps_line; inr []; inr ps_line; inr []], only_9001).

(** The server is there and the socket-lister fails. *)
Definition script_port_listing_fails : script :=
  ([inr ps_line; inl {| message := str "Command failed: lsof" |}], only_9001).

(** Result and trace of a run. *)
Definition result_of {World A : Type} (x : (Error + A) * World * trace) : Error + A :=
  fst (fst x).

Definition trace_of {World A : Type} (x : (Error + A) * World * trace) : trace :=
  snd x.


(** *** Where a parsed value sits in the raw output

    [flag_value eqv flag class raw value]: [raw] holds the flag (up to
    [eqv]), then a separator run of [=] and white space, then [value], a
    run of [class] characters that stops at the first character outside
    the class or at the end of [raw]. *)
Definition ends_run (class : char -> bool) (after : jsstring) : Prop :=
  match after with
  | [] => True
  | c :: _ => class c = false
  end.

Definition run_of (class : char -> bool) (value : jsstring) : Prop :=
  value <> [] /\ Forall (fun c => class c = true) value.

Definition flag_value (eqv : char -> char -> bool) (flag : jsstring)
    (class : char -> bool) (raw value : jsstring) : Prop :=
  exists before name seps after,
    raw = before ++ name ++ seps ++ value ++ after
    /\ Forall2 (fun a b => eqv a b = true) flag name
    /\ run_of eq_or_space seps
    /\ run_of class value
    /\ ends_run class after.

(** The same for a field written [name=value], as wmic prints it. *)
Definition field_value (name : jsstring) (class : char -> bool)
    (raw value : jsstring) : Prop :=
  exists before after,
    raw = before ++ name ++ value ++ after
    /\ run_of class value
    /\ ends_run class after.

(** A pid that is a number: not NaN. *)
Definition is_number (x : number) : Prop := x <> NaN.

(** [listening_entry host text p]: [text] holds [host], then a run of
    digits, the whole run, then, on the same line, the word LISTEN; [p] is
    what [parseInt] makes of the digits. *)
Definition listening_entry (host text : jsstring) (p : number) : Prop :=
  exists before g mid after,
    text = before ++ host ++ g ++ mid ++ str "LISTEN" ++ after
    /\ run_of is_digit g
    /\ ends_run is_digit (mid ++ str "LISTEN")
    /\ Forall (fun c => any_char c = true) mid
    /\ p = parseInt g.

(** [netstat_entry text p]: [text] holds a line of the windows netstat,
    [127.0.0.1:<digits> <spaces> 0.0.0.0:0 <spaces> LISTENING]. *)
Definition netstat_entry (text : jsstring) (p : number) : Prop :=
  exists before g gap1 gap2 after,
    text = before ++ str "127.0.0.1:" ++ g ++ gap1 ++ str "0.0.0.0:0"
                  ++ gap2 ++ str "LISTENING" ++ after
    /\ run_of is_digit g
    /\ run_of is_space gap1
    /\ run_of is_space gap2
    /\ p = parseInt g.

(** *** The runs of the detector, step by step *)

Definition no_working_port : Error := {| message := str "无法找到可用的 API 端口" |}.

Section Grammar.
Context {platformStrategy : IPlatformStrategy}.
Variable processName : jsstring.

Definition process_not_found : Error :=
  {| message := processNotFound getErrorMessages |}.

(** What an attempt makes of the result of [findWorkingPort]. *)
Definition verdict (info : ProcessInfo) (found : option number)
  : Error + AntigravityProcessInfo :=
  match found with
  | Some p =>
      if truthy_number p
      then inr {| extensionPort := Platform.extensionPort info;
                  connectPort := p;
                  csrfToken := Platform.csrfToken info |}
      else inl no_working_port
  | None => inl no_working_port
  end.

(** [attempt_run attempt ss r]: the [try] block of attempt number
    [attempt] makes the steps [ss] and ends with [r], a thrown error or the
    credentials returned. *)
Inductive attempt_run (attempt : nat)
  : list step -> Error + AntigravityProcessInfo -> Prop :=
| attempt_listing_failed err :
    attempt_run attempt
      [AttemptStarted attempt;
       Executed (getProcessListCommand processName) 5000 (inl err)]
      (inl err)
| attempt_not_found stdout :
    parseProcessInfo stdout = None ->
    attempt_run attempt
      [AttemptStarted attempt;
       Executed (getProcessListCommand processName) 5000 (inr stdout)]
      (inl process_not_found)
| attempt_no_ports stdout info answer :
    parseProcessInfo stdout = Some info ->
    candidates answer = [] ->
    attempt_run attempt
      [AttemptStarted attempt;
       Executed (getProcessListCommand processName) 5000 (inr stdout);
       Executed (getPortListCommand (pid info)) 3000 answer]
      (inl no_listening_ports)
| attempt_probed stdout info answer found ss :
    parseProcessInfo stdout = Some info ->
    candidates answer <> [] ->
    probing (candidates answer) (Platform.csrfToken info) (inr found) ss ->
    attempt_run attempt
      (AttemptStarted attempt
       :: Executed (getProcessListCommand processName) 5000 (inr stdout)
       :: Executed (getPortListCommand (pid info)) 3000 answer
       :: ss)
      (verdict info found)
| attempt_probe_threw stdout info answer error ss :
    parseProcessInfo stdout = Some info ->
    candidates answer <> [] ->
    probing (candidates answer) (Platform.csrfToken info) (inl error) ss ->
    attempt_run attempt
      (AttemptStarted attempt
       :: Executed (getProcessListCommand processName) 5000 (inr stdout)
       :: Executed (getPortListCommand (pid info)) 3000 answer
       :: ss)
      (inl error).

(** [detect_run maxRetries retryDelay remaining attempt ss r]: the loop,
    from attempt number [attempt] with [remaining] turns left, makes the
    steps [ss] and returns [r]. *)
Inductive detect_run (maxRetries : nat) (retryDelay : N)
  : nat -> nat -> list step -> option AntigravityProcessInfo -> Prop :=
| detect_exhausted attempt :
    detect_run maxRetries retryDelay 0 attempt [] None
| detect_success remaining attempt ss c :
    attempt_run attempt ss (inr c) ->
    detect_run maxRetries retryDelay (S remaining) attempt ss (Some c)
| detect_retry remaining attempt ss e ss' r :
    attempt_run attempt ss (inl e) ->
    detect_run maxRetries retryDelay remaining (S attempt) ss' r ->
    detect_run maxRetries retryDelay (S remaining) attempt
      (ss ++ (if (attempt <? maxRetries)%nat then [Delayed retryDelay] else [])
          ++ ss')
      r.

End Grammar.

(** The commands run, with their bounds. *)
Definition executions_of (ss : list step) : list (command * N) :=
  flat_map (fun s => match s with Executed cmd t _ => [(cmd, t)] | _ => [] end) ss.

(** The shipped strategies. *)
Definition shipped (strategy : IPlatformStrategy) : Prop :=
  (exists platform, strategy = Unix.UnixProcessDetector platform)
  \/ strategy = Windows.WindowsProcessDetector.

(** The ports of two probes made one right after the other; [prev] is
    the port of the probe just made, if the last step was a probe. *)
Fixpoint adjacent_from (prev : option number) (ss : list step)
  : list (number * number) :=
  match ss with
  | [] => []
  | Probed o _ :: rest =>
      match prev with
      | Some p => [(p, port o)]
      | None => []
      end ++ adjacent_from (Some (port o)) rest
  | _ :: rest => adjacent_from None rest
  end.

Definition adjacent_probes (ss : list step) : list (number * number) :=
  adjacent_from None ss.

(** The steps do not begin with a probe. *)
Definition no_probe_head (ss : list step) : Prop :=
  match ss with
  | Probed _ _ :: _ => False
  | _ => True
  end.

Definition increasing (pq : number * number) : Prop := number_lt (fst pq) (snd pq).

Section Provenance.
Context {platformStrategy : IPlatformStrategy}.
Variable processName : jsstring.

(** A probe of the run goes to a candidate port of a port listing of the
    run, with the token parsed from a process listing of the run. *)
Definition probe_from (ss : list step) (o : RequestOptions) : Prop :=
  exists stdout info answer,
    In (getProcessListCommand processName, inr stdout) (process_listings_of ss)
    /\ parseProcessInfo stdout = Some info
    /\ In (getPortListCommand (pid info), answer) (port_listings_of ss)
    /\ In (port o) (candidates answer)
    /\ o = probe_options (port o) (Platform.csrfToken info).

(** A command of the run is the process listing, bounded by 5 seconds, or
    the port listing for a pid parsed in the run, bounded by 3 seconds. *)
Definition command_from (ss : list step) (ct : command * N) : Prop :=
  ct = (getProcessListCommand processName, 5000)
  \/ exists stdout info,
       In (getProcessListCommand processName, inr stdout) (process_listings_of ss)
       /\ parseProcessInfo stdout = Some info
       /\ ct = (getPortListCommand (pid info), 3000).

End Provenance.

End Spec.

(** ** Facts about the matcher *)

Module RegexFacts.
Import JS Regex Spec.

Lemma consumed_app (x s' : jsstring) : consumed (x ++ s') s' = x.
Proof.
  unfold consumed. rewrite length_app.
  replace (length x + length s' - length s')%nat with (length x) by lia.
  rewrite firstn_app, firstn_all, Nat.sub_diag. simpl. apply app_nil_r.
Qed.

Lemma star_match_sound (R : Type) (p : char -> bool) (s : jsstring)
    (k : jsstring -> option R) (res : R) :
  star_match p s k = Some res ->
  exists x s', s = x ++ s' /\ Forall (fun c => p c = true) x /\ k s' = Some res.
Proof.
  induction s as [|c s IH]; simpl; intros H.
  - exists [], []. auto.
  - destruct (p c) eqn:Hp.
    + destruct (star_match p s k) eqn:Hs.
      * inversion H; subst. destruct (IH eq_refl) as (x & s' & -> & Hx & Hk).
        exists (c :: x), s'. auto.
      * exists [], (c :: s). auto.
    + exists [], (c :: s). auto.
Qed.

Lemma rmatch_sound (R : Type) (r : regex) :
  forall (s : jsstring) (caps : captures)
         (k : jsstring -> captures -> option R) (res : R),
    rmatch r s caps k = Some res ->
    exists x s' caps',
      s = x ++ s' /\ matches r x caps caps' /\ k s' caps' = Some res.
Proof.
  induction r as [|p|p|p|r1 IH1 r2 IH2|r1 IH1 r2 IH2|i r1 IH1];
    simpl; intros s caps k res H.
  - exists [], s, caps. repeat split; auto. constructor.
  - destruct s as [|c s]; [discriminate|].
    destruct (p c) eqn:Hp; [|discriminate].
    exists [c], s, caps. repeat split; auto. now constructor.
  - apply star_match_sound in H. destruct H as (x & s' & -> & Hx & Hk).
    exists x, s', caps. repeat split; auto. now constructor.
  - destruct s as [|c s]; [discriminate|].
    destruct (p c) eqn:Hp; [|discriminate].
    apply star_match_sound in H. destruct H as (x & s' & -> & Hx & Hk).
    exists (c :: x), s', caps. repeat split; auto.
    constructor; [discriminate | auto].
  - apply IH1 in H. destruct H as (x1 & s1 & caps1 & -> & M1 & H).
    apply IH2 in H. destruct H as (x2 & s2 & caps2 & -> & M2 & H).
    exists (x1 ++ x2), s2, caps2. rewrite <- app_assoc. repeat split; auto.
    econstructor; eauto.
  - destruct (rmatch r1 s caps k) eqn:H1.
    + inversion H; subst. apply IH1 in H1.
      destruct H1 as (x & s' & caps' & -> & M & Hk).
      exists x, s', caps'. repeat split; auto. now apply matches_alt_l.
    + apply IH2 in H. destruct H as (x & s' & caps' & -> & M & Hk).
      exists x, s', caps'. repeat split; auto. now apply matches_alt_r.
  - apply IH1 in H. destruct H as (x & s' & caps' & -> & M & Hk).
    rewrite consumed_app in Hk.
    exists x, s', ((i, x) :: caps'). repeat split; auto. now constructor.
Qed.

Lemma match_here_sound (r : regex) (s s' : jsstring) (caps : captures) :
  match_here r s = Some (s', caps) ->
  exists x, s = x ++ s' /\ matches r x [] caps.
Proof.
  unfold match_here. intros H. apply rmatch_sound in H.
  destruct H as (x & s1 & caps1 & -> & M & Hk). inversion Hk; subst.
  exists x. auto.
Qed.

Lemma exec_at_sound (r : regex) (s : jsstring) :
  forall (i : nat) (m : MatchResult),
    exec_at r i s = Some m ->
    exists before,
      s = before ++ matched m ++ rest m /\ matches r (matched m) [] (groups m).
Proof.
  induction s as [|c s IH]; intros i m; simpl.
  - destruct (match_here r []) as [[s' caps]|] eqn:H; [|discriminate].
    intros E; inversion E; subst; simpl.
    apply match_here_sound in H. destruct H as (x & Hx & M).
    symmetry in Hx. apply app_eq_nil in Hx. destruct Hx as [-> ->].
    exists []. simpl. auto.
  - destruct (match_here r (c :: s)) as [[s' caps]|] eqn:H.
    + intros E; inversion E; subst; simpl.
      apply match_here_sound in H. destruct H as (x & Hx & M).
      exists []. simpl. rewrite Hx. rewrite consumed_app. auto.
    + intros E. apply IH in E. destruct E as (before & -> & M).
      exists (c :: before). auto.
Qed.

Lemma exec_sound (r : regex) (s : jsstring) (m : MatchResult) :
  exec r s = Some m ->
  exists before,
    s = before ++ matched m ++ rest m /\ matches r (matched m) [] (groups m).
Proof. apply exec_at_sound. Qed.

Lemma exec_occurs (r : regex) (s : jsstring) (m : MatchResult) :
  exec r s = Some m -> occurs r s.
Proof.
  intros H. apply exec_sound in H. destruct H as (before & E & M).
  exists before, (matched m), (rest m), (groups m). auto.
Qed.


Lemma matches_seq_inv r1 r2 x caps caps' :
  matches (Seq r1 r2) x caps caps' ->
  exists x1 x2 caps1,
    x = x1 ++ x2 /\ matches r1 x1 caps caps1 /\ matches r2 x2 caps1 caps'.
Proof. intros H. inversion H; subst. eauto 7. Qed.

Lemma matches_plus_inv p x caps caps' :
  matches (Plus p) x caps caps' ->
  x <> [] /\ Forall (fun c => p c = true) x /\ caps' = caps.
Proof. intros H. inversion H; subst. auto. Qed.

Lemma matches_star_inv p x caps caps' :
  matches (Star p) x caps caps' ->
  Forall (fun c => p c = true) x /\ caps' = caps.
Proof. intros H. inversion H; subst. auto. Qed.

Lemma matches_group_inv i r x caps caps' :
  matches (Group i r) x caps caps' ->
  exists caps1, matches r x caps caps1 /\ caps' = (i, x) :: caps1.
Proof. intros H. inversion H; subst. eauto. Qed.

Lemma matches_alt_inv r1 r2 x caps caps' :
  matches (Alt r1 r2) x caps caps' ->
  matches r1 x caps caps' \/ matches r2 x caps caps'.
Proof. intros H. inversion H; subst; auto. Qed.

Lemma matches_chars_inv (eqv : char -> char -> bool) (l : jsstring) :
  forall x caps caps',
    matches (fold_right (fun c r => Seq (Chr (eqv c)) r) Eps l) x caps caps' ->
    Forall2 (fun a b => eqv a b = true) l x /\ caps' = caps.
Proof.
  induction l as [|c l IH]; simpl; intros x caps caps' H.
  - inversion H; subst. auto.
  - apply matches_seq_inv in H. destruct H as (x1 & x2 & caps1 & -> & H1 & H2).
    inversion H1; subst. apply IH in H2. destruct H2 as [F ->].
    simpl. auto.
Qed.

Lemma matches_lit_inv (s : String.string) x caps caps' :
  matches (lit s) x caps caps' -> x = str s /\ caps' = caps.
Proof.
  unfold lit. intros H. apply matches_chars_inv in H. destruct H as [F ->].
  split; [|reflexivity].
  induction F as [|a b l l' E F IH]; [reflexivity|].
  apply N.eqb_eq in E. now subst.
Qed.

Lemma matches_lit_i_inv (s : String.string) x caps caps' :
  matches (lit_i s) x caps caps' ->
  Forall2 (fun a b => ci_eq a b = true) (str s) x /\ caps' = caps.
Proof. unfold lit_i. apply matches_chars_inv. Qed.

(** A regex that starts with literal text only occurs where the text does. *)
Lemma occurs_lit_prefix (s : String.string) (r : regex) (t : jsstring) :
  occurs (Seq (lit s) r) t -> substring_of (str s) t.
Proof.
  intros (before & x & after & caps & -> & M).
  apply matches_seq_inv in M. destruct M as (x1 & x2 & caps1 & -> & M1 & _).
  apply matches_lit_inv in M1. destruct M1 as [-> _].
  exists before, (x2 ++ after). now rewrite <- app_assoc.
Qed.

Lemma occurs_lit_i_prefix (s : String.string) (r : regex) (t : jsstring) :
  occurs (Seq (lit_i s) r) t -> substring_ci (str s) t.
Proof.
  intros (before & x & after & caps & -> & M).
  apply matches_seq_inv in M. destruct M as (x1 & x2 & caps1 & -> & M1 & _).
  apply matches_lit_i_inv in M1. destruct M1 as [F _].
  exists before, x1, (x2 ++ after). now rewrite <- app_assoc.
Qed.

(** Groups of the form [(\d+)] only ever capture runs of digits. *)
Lemma matches_digit_captures r x caps caps' :
  matches r x caps caps' ->
  digit_groups r -> digit_captures caps -> digit_captures caps'.
Proof.
  induction 1; simpl; intros G D; auto.
  - destruct G. auto.
  - destruct G. auto.
  - destruct G. auto.
  - subst r. apply matches_plus_inv in H. destruct H as (N & F & ->).
    constructor; [split; assumption | assumption].
Qed.

Lemma lookup_digit_captures i caps g :
  digit_captures caps -> lookup i caps = Some g -> digits g.
Proof.
  induction 1 as [|[j x] caps D F IH]; simpl; [discriminate|].
  destruct (Nat.eqb i j); [intros E; inversion E; subst; exact D | exact IH].
Qed.

Lemma exec_digit_group r s m i g :
  digit_groups r -> exec r s = Some m -> group m i = Some g -> digits g.
Proof.
  intros G E L. apply exec_sound in E. destruct E as (before & _ & M).
  eapply lookup_digit_captures; [|exact L].
  eapply matches_digit_captures; [exact M | exact G | constructor].
Qed.

Lemma and_group_inv m i g :
  and_group m i = Some g -> exists m', m = Some m' /\ group m' i = Some g.
Proof.
  unfold and_group. destruct m as [m'|]; [|discriminate].
  destruct (group m' i) as [g'|] eqn:G; [|discriminate].
  destruct (truthy_string g'); [|discriminate].
  intros E; inversion E; subst. eauto.
Qed.

Lemma and_group_none_exec r s i : exec r s = None -> and_group (exec r s) i = None.
Proof. intros ->. reflexivity. Qed.

Lemma star_match_complete (R : Type) (p : char -> bool) (x : jsstring) :
  forall (s' : jsstring) (k : jsstring -> option R),
    Forall (fun c => p c = true) x -> k s' <> None ->
    star_match p (x ++ s') k <> None.
Proof.
  induction 1 as [|c x Hc F IH]; intros K.
  - simpl. destruct s' as [|c s']; simpl; [assumption|].
    destruct (p c); [|assumption].
    destruct (star_match p s' k); [discriminate | assumption].
  - simpl. rewrite Hc. specialize (IH K).
    destruct (star_match p (x ++ s') k); [discriminate | contradiction].
Qed.

Lemma rmatch_complete (R : Type) r x caps caps' :
  matches r x caps caps' ->
  forall (s' : jsstring) (k : jsstring -> captures -> option R),
    k s' caps' <> None -> rmatch r (x ++ s') caps k <> None.
Proof.
  induction 1 as [caps|p c caps Hc|p x caps F|p x caps NE F
                 |r1 r2 x1 x2 caps caps1 caps2 M1 IH1 M2 IH2
                 |r1 r2 x caps caps' M IH|r1 r2 x caps caps' M IH
                 |i r x caps caps' M IH]; intros s' k K; simpl.
  - assumption.
  - now rewrite Hc.
  - now apply star_match_complete.
  - destruct x as [|c x]; [congruence|]. inversion F; subst. simpl.
    rewrite H1. now apply star_match_complete.
  - rewrite <- app_assoc. apply IH1. now apply IH2.
  - specialize (IH s' k K). destruct (rmatch r1 (x ++ s') caps k); congruence.
  - destruct (rmatch r1 (x ++ s') caps k); [discriminate|]. now apply IH.
  - apply IH. now rewrite consumed_app.
Qed.

Lemma exec_at_complete r before :
  forall i x after caps,
    matches r x [] caps -> exec_at r i (before ++ x ++ after) <> None.
Proof.
  induction before as [|c before IH]; intros i x after caps M.
  - assert (H : match_here r (x ++ after) <> None).
    { unfold match_here. eapply rmatch_complete; eauto. discriminate. }
    simpl app. destruct (x ++ after) as [|c s]; simpl;
      destruct (match_here r _) as [[s' caps']|]; congruence.
  - simpl. destruct (match_here r (c :: before ++ x ++ after)) as [[s' caps']|];
      [discriminate|]. eapply IH; eauto.
Qed.

(** [exec] finds a match exactly when there is one. *)
Lemma exec_none_iff r s : exec r s = None <-> ~ occurs r s.
Proof.
  split.
  - intros E (before & x & after & caps & -> & M).
    now apply (@exec_at_complete r before 0%nat x after caps M).
  - intros N. destruct (exec r s) as [m|] eqn:E; [|reflexivity].
    exfalso. apply N. eapply exec_occurs; eauto.
Qed.

End RegexFacts.

(** ** Facts about numbers and sorting *)

Module NumberFacts.
Import JS Regex Platform Spec.

Lemma compare_sub_irrefl (a : number) : ~ number_lt a a.
Proof.
  unfold number_lt. destruct a as [|s m|s]; simpl; try discriminate.
  - rewrite Z.compare_refl. discriminate.
  - rewrite Bool.eqb_reflx. discriminate.
Qed.

Lemma port_eq_dec_svz (a b : number) :
  is_port a -> is_port b -> same_value_zero a b = true <-> a = b.
Proof.
  destruct a as [|[] m1|[]], b as [|[] m2|[]]; simpl; try tauto;
    intros _ _; split; try discriminate; try reflexivity.
  - rewrite orb_true_r, andb_true_r. intros E. apply N.eqb_eq in E. now subst.
  - intros E. inversion E; subst. now rewrite N.eqb_refl, orb_true_r.
Qed.

Lemma port_compare_eq (a b : number) :
  is_port a -> is_port b -> compare_sub a b = Eq -> a = b.
Proof.
  destruct a as [|[] m1|[]], b as [|[] m2|[]]; simpl; try tauto;
    intros _ _; try discriminate; try reflexivity.
  intros E. apply Z.compare_eq in E. apply N2Z.inj in E. now subst.
Qed.

Lemma port_compare_gt (a b : number) :
  is_port a -> is_port b -> compare_sub a b = Gt -> number_lt b a.
Proof.
  unfold number_lt.
  destruct a as [|[] m1|[]], b as [|[] m2|[]]; simpl; try tauto;
    intros _ _; try discriminate; try reflexivity.
  intros E. now rewrite Z.compare_antisym, E.
Qed.

Lemma port_lt_trans (a b c : number) :
  is_port a -> is_port b -> is_port c ->
  number_lt a b -> number_lt b c -> number_lt a c.
Proof.
  unfold number_lt.
  destruct a as [|[] m1|[]], b as [|[] m2|[]], c as [|[] m3|[]]; simpl;
    try tauto; intros _ _ _; try discriminate; try reflexivity.
  rewrite !Z.compare_lt_iff. lia.
Qed.

Lemma in_insert_sorted (x y : number) (l : list number) :
  In y (insert_sorted x l) <-> y = x \/ In y l.
Proof.
  induction l as [|z l IH]; simpl.
  - intuition congruence.
  - destruct (compare_sub x z); simpl; rewrite ?IH; intuition congruence.
Qed.

Lemma insert_sorted_ascending (x : number) (l : list number) :
  is_port x -> Forall is_port l -> ~ In x l ->
  ascending l -> ascending (insert_sorted x l).
Proof.
  unfold ascending. intros Px Pl. induction Pl as [|y l Py Pl IH]; simpl; intros NI S.
  - repeat constructor.
  - apply StronglySorted_inv in S. destruct S as [S F].
    destruct (compare_sub x y) eqn:C.
    + apply port_compare_eq in C; auto. subst. exfalso. apply NI. now left.
    + constructor.
      * constructor; assumption.
      * constructor; [exact C|].
        rewrite Forall_forall in F, Pl. apply Forall_forall. intros z Hz.
        apply (@port_lt_trans x y z); auto.
    + constructor; [apply IH; tauto|].
      apply Forall_forall. intros z Hz. apply in_insert_sorted in Hz.
      destruct Hz as [->|Hz].
      * apply port_compare_gt; auto.
      * rewrite Forall_forall in F. auto.
Qed.

Lemma fold_insert_ascending (l : list number) :
  forall acc,
    Forall is_port l -> NoDup l -> Forall is_port acc -> ascending acc ->
    (forall x, In x l -> ~ In x acc) ->
    ascending (fold_left (fun acc x => insert_sorted x acc) l acc)
    /\ forall y, In y (fold_left (fun acc x => insert_sorted x acc) l acc)
                 <-> In y acc \/ In y l.
Proof.
  induction l as [|x l IH]; simpl; intros acc Pl ND Pa S D.
  - split; [assumption | tauto].
  - inversion Pl; subst. inversion ND; subst.
    destruct (IH (insert_sorted x acc)) as [S' I']; auto.
    + apply Forall_forall. intros z Hz. apply in_insert_sorted in Hz.
      destruct Hz as [->|Hz]; [assumption|]. rewrite Forall_forall in Pa. auto.
    + apply insert_sorted_ascending; auto.
    + intros z Hz Hin. apply in_insert_sorted in Hin.
      destruct Hin as [->|Hin]; [contradiction|]. eapply D; eauto.
    + split; [assumption|]. intros y. rewrite I', in_insert_sorted. intuition congruence.
Qed.

Lemma sort_ascending (l : list number) :
  Forall is_port l -> NoDup l ->
  ascending (sort l) /\ forall y, In y (sort l) <-> In y l.
Proof.
  intros P ND. unfold sort.
  destruct (@fold_insert_ascending l [] P ND) as [S I]; auto.
  - constructor.
  - split; [assumption|]. intros y. rewrite I. simpl. tauto.
Qed.

Lemma ascending_NoDup (l : list number) : ascending l -> NoDup l.
Proof.
  induction 1 as [|x l S IH F]; constructor; auto.
  intros Hin. rewrite Forall_forall in F. apply (@compare_sub_irrefl x). auto.
Qed.


Lemma includes_false_not_in (ports : list number) (x : number) :
  Forall is_port ports -> is_port x -> includes ports x = false -> ~ In x ports.
Proof.
  unfold includes. intros P Px E Hin.
  assert (existsb (same_value_zero x) ports = true); [|congruence].
  apply existsb_exists. exists x. split; [assumption|].
  apply port_eq_dec_svz; auto.
Qed.

Lemma push_new_port_set (ports : list number) (x : number) :
  port_set ports -> is_port x -> port_set (push_new ports x).
Proof.
  intros [P ND] Px. unfold push_new, push.
  destruct (includes ports x) eqn:E; [split; assumption|].
  split.
  - apply Forall_app. auto.
  - apply NoDup_app; auto.
    + repeat constructor. intros [].
    + intros y Hy [<-|[]]. eapply includes_false_not_in; eauto.
Qed.

Lemma is_space_digit (c : char) : is_digit c = true -> is_space c = false.
Proof.
  unfold is_digit, is_space. intros H.
  apply andb_true_iff in H. destruct H as [H1 H2].
  apply N.leb_le in H1. apply N.leb_le in H2.
  repeat match goal with
         | |- context [?a =? ?b] =>
             lazymatch b with
             | c => fail
             | _ => replace (a =? b) with false by (symmetry; apply N.eqb_neq; lia)
             end
         end.
  replace (8192 <=? c) with false by (symmetry; apply N.leb_gt; lia).
  reflexivity.
Qed.

Lemma parseInt_digits (g : jsstring) : digits g -> is_port (parseInt g).
Proof.
  intros [NE F]. destruct g as [|c g]; [congruence|].
  inversion F as [|? ? Hc Hg]; subst.
  unfold parseInt, trimStart. simpl dropWhile.
  rewrite (is_space_digit _ Hc).
  assert (H45 : (c =? 45) = false).
  { unfold is_digit in Hc. apply andb_true_iff in Hc. destruct Hc as [H1 _].
    apply N.leb_le in H1. apply N.eqb_neq. lia. }
  assert (H43 : (c =? 43) = false).
  { unfold is_digit in Hc. apply andb_true_iff in Hc. destruct Hc as [H1 _].
    apply N.leb_le in H1. apply N.eqb_neq. lia. }
  rewrite H45, H43. simpl takeWhile. rewrite Hc.
  destruct (round_to_double _); exact I.
Qed.

End NumberFacts.

(** ** Facts about the port parsers *)

Module ParserFacts.
Import JS Regex Platform Spec RegexFacts NumberFacts.

Lemma digit_groups_lsof : digit_groups re_lsof.
Proof. cbv. repeat split. Qed.

Lemma digit_groups_netstat : digit_groups re_netstat.
Proof. cbv. repeat split. Qed.

Lemma digit_groups_localhost : digit_groups re_localhost.
Proof. cbv. repeat split. Qed.

Lemma digit_groups_windows : digit_groups re_windows_listening.
Proof. cbv. repeat split. Qed.

Lemma and_group_port r s g :
  digit_groups r -> and_group (exec r s) 1 = Some g -> is_port (parseInt g).
Proof.
  intros G H. apply and_group_inv in H. destruct H as (m & E & L).
  apply parseInt_digits. eapply exec_digit_group; eauto.
Qed.

Lemma localhost_captures x caps :
  matches re_localhost x [] caps ->
  exists g, digits g /\ (caps = [(1%nat, g)] \/ caps = [(2%nat, g)]).
Proof.
  unfold re_localhost, seq. intros H.
  apply matches_alt_inv in H. destruct H as [H|H];
    apply matches_seq_inv in H; destruct H as (x1 & y1 & c1 & -> & H1 & H);
    apply matches_lit_inv in H1; destruct H1 as [-> ->];
    apply matches_seq_inv in H; destruct H as (x2 & y2 & c2 & -> & H2 & H);
    apply matches_group_inv in H2; destruct H2 as (c2' & H2 & ->);
    apply matches_plus_inv in H2; destruct H2 as (NE & F & ->);
    apply matches_seq_inv in H; destruct H as (x3 & y3 & c3 & -> & H3 & H);
    apply matches_star_inv in H3; destruct H3 as (_ & ->);
    apply matches_lit_inv in H; destruct H as [-> ->];
    exists x2; (split; [split; assumption|]); auto.
Qed.

Lemma localhost_port line m :
  exec re_localhost line = Some m ->
  is_port (parseInt_value (or_group (group m 1) (group m 2))).
Proof.
  intros E. apply exec_sound in E. destruct E as (before & _ & M).
  apply localhost_captures in M. destruct M as (g & D & [C|C]);
    unfold group; rewrite C; simpl.
  - destruct D as [NE F]. destruct g; [congruence|]. simpl.
    apply parseInt_digits. split; assumption.
  - apply parseInt_digits. assumption.
Qed.

Lemma scan_line_port_set ports line :
  port_set ports -> port_set (Unix.scan_line ports line).
Proof.
  intros P. unfold Unix.scan_line.
  destruct (and_group (exec re_lsof line) 1) as [g|] eqn:E1.
  { apply push_new_port_set; auto. eapply and_group_port; eauto using digit_groups_lsof. }
  destruct (and_group (exec re_netstat line) 1) as [g|] eqn:E2.
  { apply push_new_port_set; auto. eapply and_group_port; eauto using digit_groups_netstat. }
  destruct (exec re_localhost line) as [m|] eqn:E3; [|assumption].
  apply push_new_port_set; auto. eapply localhost_port; eauto.
Qed.

Lemma fold_scan_line_port_set lines :
  forall ports, port_set ports -> port_set (fold_left Unix.scan_line lines ports).
Proof.
  induction lines as [|l lines IH]; simpl; intros ports P; [assumption|].
  apply IH. now apply scan_line_port_set.
Qed.

Lemma port_set_nil : port_set [].
Proof. split; constructor. Qed.

Lemma sort_port_set ports :
  port_set ports -> ascending (sort ports) /\ port_set (sort ports).
Proof.
  intros [P ND]. destruct (sort_ascending P ND) as [S I].
  split; [assumption|]. split.
  - apply Forall_forall. intros y Hy. apply I in Hy.
    rewrite Forall_forall in P. auto.
  - now apply ascending_NoDup.
Qed.

Lemma unix_ports_ascending stdout :
  ascending (Unix.parseListeningPorts stdout)
  /\ port_set (Unix.parseListeningPorts stdout).
Proof.
  unfold Unix.parseListeningPorts.
  destruct (negb (truthy_string stdout) || (length (trim stdout) =? 0)%nat).
  - split; [constructor | apply port_set_nil].
  - apply sort_port_set. apply fold_scan_line_port_set. apply port_set_nil.
Qed.

Lemma not_occurs_exec r s : ~ occurs r s -> exec r s = None.
Proof.
  intros N. destruct (exec r s) as [m|] eqn:E; [|reflexivity].
  exfalso. apply N. eapply exec_occurs; eauto.
Qed.

Lemma scan_line_unrecognized ports line :
  ~ occurs re_lsof line -> ~ occurs re_netstat line -> ~ occurs re_localhost line ->
  Unix.scan_line ports line = ports.
Proof.
  intros N1 N2 N3. unfold Unix.scan_line.
  now rewrite (not_occurs_exec N1), (not_occurs_exec N2), (not_occurs_exec N3).
Qed.

Lemma unix_ports_unrecognized stdout :
  (forall line, In line (split_lines (trim stdout)) ->
     ~ occurs re_lsof line /\ ~ occurs re_netstat line /\ ~ occurs re_localhost line) ->
  Unix.parseListeningPorts stdout = [].
Proof.
  intros H. unfold Unix.parseListeningPorts.
  destruct (negb (truthy_string stdout) || (length (trim stdout) =? 0)%nat);
    [reflexivity|].
  assert (E : forall lines ports,
             (forall line, In line lines ->
                ~ occurs re_lsof line /\ ~ occurs re_netstat line
                /\ ~ occurs re_localhost line) ->
             fold_left Unix.scan_line lines ports = ports).
  { induction lines as [|l lines IH]; simpl; intros ports Hl; [reflexivity|].
    destruct (Hl l) as (N1 & N2 & N3); [now left|].
    rewrite scan_line_unrecognized by assumption. apply IH. auto. }
  rewrite E by assumption. reflexivity.
Qed.

(** The windows loop *)

Lemma windows_match_nonempty x caps :
  matches re_windows_listening x [] caps -> x <> [].
Proof.
  unfold re_windows_listening, seq. intros H.
  apply matches_seq_inv in H. destruct H as (x1 & y1 & c1 & -> & H1 & H).
  apply matches_lit_inv in H1. destruct H1 as [-> ->]. discriminate.
Qed.

Lemma windows_exec_rest s m :
  exec re_windows_listening s = Some m -> (length (rest m) < length s)%nat.
Proof.
  intros E. apply exec_sound in E. destruct E as (before & -> & M).
  apply windows_match_nonempty in M. rewrite !length_app.
  assert (length (matched m) <> 0)%nat; [|lia].
  intros Z. apply length_zero_iff_nil in Z. contradiction.
Qed.

Lemma windows_captures x caps :
  matches re_windows_listening x [] caps ->
  exists g, digits g /\ caps = [(1%nat, g)].
Proof.
  unfold re_windows_listening, seq. intros H.
  apply matches_seq_inv in H. destruct H as (x1 & y1 & c1 & -> & H1 & H).
  apply matches_lit_inv in H1. destruct H1 as [-> ->].
  apply matches_seq_inv in H. destruct H as (x2 & y2 & c2 & -> & H2 & H).
  apply matches_group_inv in H2. destruct H2 as (c2' & H2 & ->).
  apply matches_plus_inv in H2. destruct H2 as (NE & F & ->).
  apply matches_seq_inv in H. destruct H as (x3 & y3 & c3 & -> & H3 & H).
  apply matches_plus_inv in H3. destruct H3 as (_ & _ & ->).
  apply matches_seq_inv in H. destruct H as (x4 & y4 & c4 & -> & H4 & H).
  apply matches_lit_inv in H4. destruct H4 as [-> ->].
  apply matches_seq_inv in H. destruct H as (x5 & y5 & c5 & -> & H5 & H).
  apply matches_plus_inv in H5. destruct H5 as (_ & _ & ->).
  apply matches_lit_inv in H. destruct H as [-> ->].
  exists x2. split; [split; assumption | reflexivity].
Qed.

Lemma windows_group_port s m :
  exec re_windows_listening s = Some m -> is_port (parseInt_value (group m 1)).
Proof.
  intros E. apply exec_sound in E. destruct E as (before & _ & M).
  apply windows_captures in M. destruct M as (g & D & C).
  unfold group. rewrite C. simpl. now apply parseInt_digits.
Qed.

Lemma exec_loop_terminates fuel :
  forall s ports,
    (length s < fuel)%nat -> port_set ports ->
    exists ports', Windows.exec_loop fuel s ports = Some ports' /\ port_set ports'.
Proof.
  induction fuel as [|fuel IH]; intros s ports L P; [lia|]. simpl.
  destruct (exec re_windows_listening s) as [m|] eqn:E; [|eauto].
  apply IH.
  - apply windows_exec_rest in E. lia.
  - apply push_new_port_set; auto. eapply windows_group_port; eauto.
Qed.

Lemma exec_loop_fuel fuel :
  forall fuel' s ports ports',
    Windows.exec_loop fuel s ports = Some ports' -> (fuel <= fuel')%nat ->
    Windows.exec_loop fuel' s ports = Some ports'.
Proof.
  induction fuel as [|fuel IH]; intros fuel' s ports ports'; simpl; [discriminate|].
  intros H L. destruct fuel' as [|fuel']; [lia|]. simpl.
  destruct (exec re_windows_listening s) as [m|]; [|assumption].
  apply IH; [assumption | lia].
Qed.

Lemma windows_ports_ascending stdout :
  ascending (Windows.parseListeningPorts stdout)
  /\ port_set (Windows.parseListeningPorts stdout).
Proof.
  unfold Windows.parseListeningPorts.
  destruct (@exec_loop_terminates (S (length stdout)) stdout [])
    as (ports & -> & P); [lia | apply port_set_nil |].
  now apply sort_port_set.
Qed.

Lemma windows_ports_unrecognized stdout :
  ~ occurs re_windows_listening stdout -> Windows.parseListeningPorts stdout = [].
Proof.
  intros N. unfold Windows.parseListeningPorts. simpl.
  now rewrite (not_occurs_exec N).
Qed.

End ParserFacts.

(** ** Facts about the process information parsers *)

Module ProcessInfoFacts.
Import JS Regex Platform Spec RegexFacts NumberFacts ParserFacts.

Lemma dropWhile_all p s : Forall (fun c => p c = true) s -> dropWhile p s = [].
Proof. induction 1 as [|c s H F IH]; simpl; [reflexivity|]. now rewrite H. Qed.

Lemma trim_blank s : Forall (fun c => is_space c = true) s -> trim s = [].
Proof.
  intros F. unfold trim, trimStart, trimEnd. now rewrite (dropWhile_all _ F).
Qed.

Lemma unix_process_info stdout :
  Unix.parseProcessInfo stdout = process_info (unix_pid stdout) stdout.
Proof.
  unfold Unix.parseProcessInfo, process_info, unix_pid, second_column, first_line,
    found_token, declared_port.
  destruct (negb (truthy_string stdout) || (length (trim stdout) =? 0)%nat) eqn:B.
  - assert (T : trim stdout = []).
    { apply orb_true_iff in B. destruct B as [B|B].
      - destruct stdout; [reflexivity | discriminate].
      - apply Nat.eqb_eq in B. now apply length_zero_iff_nil. }
    rewrite T. reflexivity.
  - destruct (split_lines (trim stdout)) as [|firstLine lines]; [reflexivity|].
    simpl hd.
    destruct (split_spaces (trim firstLine)) as [|c0 [|pidStr cols]]; try reflexivity.
    simpl. destruct (isNaN (parseInt pidStr)); reflexivity.
Qed.

Lemma windows_process_info stdout :
  Windows.parseProcessInfo stdout = process_info (windows_pid stdout) stdout.
Proof.
  unfold Windows.parseProcessInfo, process_info, windows_pid, found_token, declared_port.
  destruct (and_group (exec re_process_id stdout) 1); reflexivity.
Qed.

Lemma substring_of_blank (needle s : jsstring) c :
  Forall (fun c => is_space c = true) s -> In c needle -> is_space c = false ->
  ~ substring_of needle s.
Proof.
  intros F Hin Hc (before & after & ->).
  rewrite Forall_forall in F. rewrite (F c) in Hc; [discriminate|].
  apply in_or_app. right. apply in_or_app. now left.
Qed.

Lemma process_id_absent stdout :
  ~ substring_of (str "ProcessId=") stdout -> exec re_process_id stdout = None.
Proof.
  intros N. apply not_occurs_exec. intros O. apply N.
  now apply occurs_lit_prefix in O.
Qed.

Lemma csrf_token_absent stdout :
  ~ substring_ci (str "--csrf_token") stdout -> exec re_csrf_token stdout = None.
Proof.
  intros N. apply not_occurs_exec. intros O. apply N.
  now apply occurs_lit_i_prefix in O.
Qed.

Lemma extension_port_absent stdout :
  ~ substring_of (str "--extension_server_port") stdout ->
  exec re_extension_port stdout = None.
Proof.
  intros N. apply not_occurs_exec. intros O. apply N.
  now apply occurs_lit_prefix in O.
Qed.

End ProcessInfoFacts.

(** ** Facts about lines *)

Module LineFacts.
Import JS Regex Platform Spec RegexFacts NumberFacts ParserFacts.





End LineFacts.

(** ** The unix parser on the two socket-lister lines *)

Module MixedOutput.
Import JS Regex Platform Spec RegexFacts NumberFacts ParserFacts LineFacts.















End MixedOutput.

(** ** The parsers: claims *)

Module ParserClaims.
Import JS Regex Platform Spec RegexFacts NumberFacts ParserFacts ProcessInfoFacts
  LineFacts MixedOutput.

(** C3: on every input both [parseListeningPorts] return distinct port
    numbers in ascending order (the loop of the windows variant ends), and
    they return the empty list on the empty input and on an input in which
    no line (unix) or no part (windows) matches a port pattern. *)
Theorem parseListeningPorts_ascending_or_empty :
  (forall stdout,
      ascending (Unix.parseListeningPorts stdout)
      /\ port_set (Unix.parseListeningPorts stdout))
  /\ (forall stdout,
        ascending (Windows.parseListeningPorts stdout)
        /\ port_set (Windows.parseListeningPorts stdout))
  /\ (forall stdout,
        exists ports, Windows.exec_loop (S (length stdout)) stdout [] = Some ports)
  /\ Unix.parseListeningPorts [] = []
  /\ Windows.parseListeningPorts [] = []
  /\ (forall stdout,
        (forall line, In line (split_lines (trim stdout)) ->
           ~ occurs re_lsof line /\ ~ occurs re_netstat line
           /\ ~ occurs re_localhost line) ->
        Unix.parseListeningPorts stdout = [])
  /\ (forall stdout,
        ~ occurs re_windows_listening stdout ->
        Windows.parseListeningPorts stdout = []).
Proof.
  split; [exact unix_ports_ascending|].
  split; [exact windows_ports_ascending|].
  split.
  { intros stdout.
    destruct (@exec_loop_terminates (S (length stdout)) stdout [])
      as (ports & E & _); [lia | apply port_set_nil | eauto]. }
  split; [reflexivity|]. split; [reflexivity|].
  split; [exact unix_ports_unrecognized | exact windows_ports_unrecognized].
Qed.

Lemma parseListeningPorts_ascending_or_empty_witness :
  Unix.parseListeningPorts (str "COMMAND PID USER") = []
  /\ Windows.parseListeningPorts (str "Active Connections") = [].
Proof.
  destruct parseListeningPorts_ascending_or_empty as (_ & _ & _ & _ & _ & U & W).
  split.
  - apply U. intros line Hin.
    assert (E : line = str "COMMAND PID USER").
    { vm_compute in Hin. destruct Hin as [<- | []]. vm_compute. reflexivity. }
    subst line. repeat split; apply exec_none_iff; vm_compute; reflexivity.
  - apply W. apply exec_none_iff. vm_compute. reflexivity.
Defined.




(** C5: on an input that is empty or made of white space only,
    [parseProcessInfo] returns [null] on both platforms; and on any input
    it returns [null] when no pid can be parsed or no CSRF token is found. *)
Theorem parseProcessInfo_absent :
  (forall stdout,
      Forall (fun c => is_space c = true) stdout ->
      Unix.parseProcessInfo stdout = None /\ Windows.parseProcessInfo stdout = None)
  /\ (forall stdout,
        unix_pid stdout = None \/ found_token stdout = None ->
        Unix.parseProcessInfo stdout = None)
  /\ (forall stdout,
        windows_pid stdout = None \/ found_token stdout = None ->
        Windows.parseProcessInfo stdout = None).
Proof.
  split; [|split].
  - intros stdout F. split.
    + unfold Unix.parseProcessInfo. rewrite (trim_blank F). simpl.
      now rewrite orb_true_r.
    + unfold Windows.parseProcessInfo.
      rewrite process_id_absent; [reflexivity|].
      apply (@substring_of_blank _ _ 80 F); [now left | reflexivity].
  - intros stdout [H|H]; rewrite unix_process_info; unfold process_info; rewrite H;
      [reflexivity | now destruct (unix_pid stdout)].
  - intros stdout [H|H]; rewrite windows_process_info; unfold process_info; rewrite H;
      [reflexivity | now destruct (windows_pid stdout)].
Qed.

Lemma parseProcessInfo_absent_witness :
  (Unix.parseProcessInfo (str "   ") = None
   /\ Windows.parseProcessInfo (str "   ") = None)
  /\ Unix.parseProcessInfo (str "user") = None
  /\ Windows.parseProcessInfo (str "ProcessId=5678") = None.
Proof.
  destruct parseProcessInfo_absent as (H1 & H2 & H3).
  split; [|split].
  - apply H1. repeat constructor.
  - apply H2. left. reflexivity.
  - apply H3. right. reflexivity.
Defined.


(** C6: the unix [parseProcessInfo] returns [null] on every input without
    a match of the CSRF-token pattern, a pid and a declared port
    notwithstanding; the windows one returns [null] on every input without
    a [ProcessId=<digits>] field, a token notwithstanding. *)
Theorem parseProcessInfo_token_and_pid_required :
  (forall stdout,
      ~ occurs re_csrf_token stdout -> Unix.parseProcessInfo stdout = None)
  /\ (unix_pid ps_line_no_token = Some (num 4412)
      /\ declared_port ps_line_no_token = num 2873
      /\ Unix.parseProcessInfo ps_line_no_token = None)
  /\ (forall stdout,
        ~ occurs re_process_id stdout -> Windows.parseProcessInfo stdout = None)
  /\ (found_token wmic_no_pid = Some (str "ab12cd34-ef56")
      /\ Windows.parseProcessInfo wmic_no_pid = None).
Proof.
  split; [|split; [|split]].
  - intros stdout N. rewrite unix_process_info. unfold process_info, found_token.
    rewrite (proj2 (exec_none_iff _ _) N). simpl. now destruct (unix_pid stdout).
  - repeat split; vm_compute; reflexivity.
  - intros stdout N. unfold Windows.parseProcessInfo.
    now rewrite (proj2 (exec_none_iff _ _) N).
  - repeat split; vm_compute; reflexivity.
Qed.

Lemma parseProcessInfo_token_and_pid_required_witness :
  Unix.parseProcessInfo ps_line_no_token = None
  /\ Windows.parseProcessInfo wmic_no_pid = None.
Proof.
  destruct parseProcessInfo_token_and_pid_required as (U & _ & W & _).
  split; [apply U | apply W]; apply exec_none_iff; vm_compute; reflexivity.
Defined.

(** C7: the unix [parseProcessInfo] reads pid 4412, declared port 2873 and
    the token off the process-lister line; in general the pid is parsed
    from the second white-space separated column of the first line, and
    the declared port is 0 when the port flag does not occur. *)
Theorem unix_parseProcessInfo_fields :
  Unix.parseProcessInfo ps_line
  = Some {| pid := num 4412;
            extensionPort := num 2873;
            csrfToken := str "ab12cd34-ef56" |}
  /\ (forall stdout info,
        Unix.parseProcessInfo stdout = Some info ->
        exists pidStr,
          second_column (first_line stdout) = Some pidStr
          /\ pid info = parseInt pidStr)
  /\ (forall stdout info,
        Unix.parseProcessInfo stdout = Some info ->
        ~ occurs re_extension_port stdout ->
        extensionPort info = num 0).
Proof.
  split; [vm_compute; reflexivity|]. split.
  - intros stdout info. rewrite unix_process_info. unfold process_info, unix_pid.
    destruct (second_column (first_line stdout)) as [pidStr|]; [|discriminate].
    destruct (isNaN (parseInt pidStr)); [discriminate|].
    destruct (found_token stdout); [|discriminate].
    intros E. inversion E; subst. simpl. eauto.
  - intros stdout info. rewrite unix_process_info. unfold process_info.
    destruct (unix_pid stdout); [|discriminate].
    destruct (found_token stdout); [|discriminate].
    intros E N. inversion E; subst. simpl. unfold declared_port.
    now rewrite (proj2 (exec_none_iff _ _) N).
Qed.

Lemma unix_parseProcessInfo_fields_witness :
  (exists pidStr,
      second_column (first_line ps_line) = Some pidStr
      /\ num 4412 = parseInt pidStr)
  /\ extensionPort
       {| pid := num 77; extensionPort := num 0; csrfToken := str "ab12" |}
     = num 0.
Proof.
  destruct unix_parseProcessInfo_fields as (E & P & D). split.
  - exact (P ps_line _ E).
  - apply (D (str "user 77 --csrf_token=ab12")).
    + vm_compute. reflexivity.
    + apply exec_none_iff. vm_compute. reflexivity.
Defined.

(** C10: the unix [parseProcessInfo] looks for the token and the declared
    port in the whole output: the token it returns is the first match in
    the raw output, and there is a two-line output whose first line has the
    pid but no token and whose second line carries the token and the port,
    on which it returns the pid of the first line with the token and port
    of the second. *)
Theorem unix_token_from_whole_output :
  (forall stdout info,
      Unix.parseProcessInfo stdout = Some info ->
      found_token stdout = Some (csrfToken info)
      /\ extensionPort info = declared_port stdout)
  /\ exists line1 line2,
       ~ In LF line1 /\ ~ In LF line2
       /\ unix_pid line1 = Some (num 4412)
       /\ exec re_csrf_token line1 = None
       /\ Unix.parseProcessInfo line1 = None
       /\ found_token line2 = Some (str "ab12cd34-ef56")
       /\ Unix.parseProcessInfo (join_lines [line1; line2])
          = Some {| pid := num 4412;
                    extensionPort := num 2873;
                    csrfToken := str "ab12cd34-ef56" |}.
Proof.
  split.
  - intros stdout info. rewrite unix_process_info. unfold process_info.
    destruct (unix_pid stdout); [|discriminate].
    destruct (found_token stdout); [|discriminate].
    intros E. inversion E; subst. simpl. auto.
  - exists ps_line_head, ps_line_tail.
    assert (NL : forall l, existsb (N.eqb LF) l = false -> ~ In LF l).
    { intros l E Hin.
      assert (existsb (N.eqb LF) l = true); [|congruence].
      apply existsb_exists. exists LF. split; [assumption | apply N.eqb_refl]. }
    split; [apply NL; vm_compute; reflexivity|].
    split; [apply NL; vm_compute; reflexivity|].
    repeat split; vm_compute; reflexivity.
Qed.

Lemma unix_token_from_whole_output_witness :
  found_token ps_line = Some (str "ab12cd34-ef56")
  /\ num 2873 = declared_port ps_line.
Proof.
  destruct unix_token_from_whole_output as (H & _).
  apply (H ps_line {| pid := num 4412;
                     extensionPort := num 2873;
                     csrfToken := str "ab12cd34-ef56" |}).
  vm_compute. reflexivity.
Defined.

End ParserClaims.

(** ** Facts about runs *)

Module RunFacts.
Import JS Platform Effects Detector Spec.

Lemma wp_mono (A : Type) (p : prog A) :
  forall (Q Q' : Error + A -> trace -> Prop),
    wp p Q -> (forall r t, Q r t -> Q' r t) -> wp p Q'.
Proof.
  induction p as [a|e|X ev k IH]; simpl; intros Q Q' H I; auto.
  intros x. eapply IH; [apply H|]. intros r t. apply I.
Qed.

Lemma wp_bind (A B : Type) (p : prog A) (f : A -> prog B) :
  forall Q : Error + B -> trace -> Prop,
    wp p (fun r t =>
            match r with
            | inr a => wp (f a) (fun r' t' => Q r' (t ++ t'))
            | inl e => Q (inl e) t
            end) ->
    wp (bind p f) Q.
Proof.
  induction p as [a|e|X ev k IH]; simpl; intros Q H.
  - eapply wp_mono; [exact H|]. auto.
  - exact H.
  - intros x. apply IH. eapply wp_mono; [apply H|].
    intros [e|a] t; auto.
Qed.

Lemma wp_try_catch (A : Type) (p : prog A) (h : Error -> prog A) :
  forall Q : Error + A -> trace -> Prop,
    wp p (fun r t =>
            match r with
            | inr a => Q (inr a) t
            | inl e => wp (h e) (fun r' t' => Q r' (t ++ t'))
            end) ->
    wp (try_catch p h) Q.
Proof.
  induction p as [a|e|X ev k IH]; simpl; intros Q H.
  - exact H.
  - eapply wp_mono; [exact H|]. auto.
  - intros x. apply IH. eapply wp_mono; [apply H|].
    intros [e|a] t; auto.
Qed.

Section Sound.
Variable World : Type.
Variable handle : forall X : Type, event X -> World -> X * World.

(** What holds of all runs holds of the run against [handle]. *)
Lemma wp_run (A : Type) (p : prog A) :
  forall (Q : Error + A -> trace -> Prop) (w : World),
    wp p Q ->
    Q (fst (fst (run handle p w))) (snd (run handle p w)).
Proof.
  induction p as [a|e|X ev k IH]; simpl; intros Q w H; auto.
  destruct (handle ev w) as [x w1].
  specialize (IH x _ w1 (H x)).
  destruct (run handle (k x) w1) as [[r w2] t]. exact IH.
Qed.

End Sound.

Lemma steps_app t1 t2 : steps (t1 ++ t2) = steps t1 ++ steps t2.
Proof. unfold steps. apply flat_map_app. Qed.

Lemma probes_of_app s1 s2 : probes_of (s1 ++ s2) = probes_of s1 ++ probes_of s2.
Proof. apply flat_map_app. Qed.

Lemma marks_of_app s1 s2 : marks_of (s1 ++ s2) = marks_of s1 ++ marks_of s2.
Proof. apply flat_map_app. Qed.

Lemma attempts_of_app s1 s2 : attempts_of (s1 ++ s2) = attempts_of s1 ++ attempts_of s2.
Proof. apply flat_map_app. Qed.

Lemma delays_of_app s1 s2 : delays_of (s1 ++ s2) = delays_of s1 ++ delays_of s2.
Proof. apply flat_map_app. Qed.

Lemma none_accepted_app s1 s2 :
  none_accepted s1 -> none_accepted s2 -> none_accepted (s1 ++ s2).
Proof.
  unfold none_accepted. intros H1 H2. rewrite probes_of_app.
  apply Forall_app. auto.
Qed.

End RunFacts.

(** ** Facts about the detector *)

Module DetectorFacts.
Import JS Platform Effects Detector Spec RunFacts.
Local Open Scope prog_scope.

Section Facts.
Context {platformStrategy : IPlatformStrategy}.
Variable processName : jsstring.
Variable platformName : jsstring.

Lemma findWorkingPort_wp ports csrfToken :
  wp (findWorkingPort ports csrfToken)
     (fun r t => probing ports csrfToken r (steps t)).
Proof.
  induction ports as [|p ports IH].
  - simpl. exists []. split; [reflexivity|]. left. repeat split; constructor.
  - cbn [findWorkingPort wp bind console trigger testPortConnectivity].
    intros [] outcome.
    assert (Refused : refused (p, outcome) ->
      wp (console ConsoleLog (MsgPortFailed p) ;; findWorkingPort ports csrfToken)
         (fun r t =>
            probing (p :: ports) csrfToken r
              (steps (Observed (Console ConsoleLog (MsgTestPort p)) tt
                      :: Observed (HttpsRequest (probe_options p csrfToken)) outcome
                      :: t)))).
    { intros NR. cbn [wp bind console trigger]. intros [].
      eapply wp_mono; [exact IH|]. intros r t (tried & E & H).
      exists ((p, outcome) :: tried). split.
      - cbn. f_equal. exact E.
      - destruct H as [(-> & M & F) | [(before & q & after & -> & M & T & F)
                                      | (before & q & after & e & -> & M & T & F)]].
        + left. repeat split; [cbn; now rewrite M | constructor; assumption].
        + right. left. exists ((p, outcome) :: before), q, after.
          repeat split; [cbn; now rewrite M | cbn; now rewrite T
                        | constructor; assumption].
        + right. right. exists ((p, outcome) :: before), q, after, e.
          repeat split; [cbn; now rewrite M | cbn; now rewrite T
                        | constructor; assumption]. }
    destruct outcome as [statusCode| | |error]; cbn [wp bind].
    + destruct (statusCode =? 200) eqn:E.
      * apply N.eqb_eq in E. subst. cbn [wp bind console trigger]. intros [].
        exists [(p, Response 200)]. split; [reflexivity|].
        right. left. exists [], p, ports. repeat split. constructor.
      * apply Refused. apply N.eqb_neq in E. exact E.
    + apply Refused. exact I.
    + apply Refused. exact I.
    + exists [(p, RequestThrown error)]. split; [reflexivity|].
      right. right. exists [], p, ports, error. repeat split. constructor.
Qed.

Lemma steps_cons o t : steps (o :: t) = step_of o ++ steps t.
Proof. reflexivity. Qed.

Lemma getProcessListeningPorts_wp pid :
  wp (getProcessListeningPorts pid)
     (fun r t =>
        exists answer,
          steps t = [Executed (getPortListCommand pid) 3000 answer]
          /\ r = inr (candidates answer)).
Proof.
  cbn [getProcessListeningPorts try_catch bind execAsync trigger wp console].
  intros [err|stdout]; cbn [try_catch bind wp console trigger].
  - intros []. exists (inl err). split; reflexivity.
  - exists (inr stdout). split; reflexivity.
Qed.

Lemma none_accepted_refused csrfToken failed :
  Forall refused failed -> none_accepted (map (probe_step csrfToken) failed).
Proof.
  unfold none_accepted. induction 1 as [|po failed R F IH]; [constructor|].
  cbn. constructor; [|exact IH]. intros [A _]. cbn in A.
  unfold refused in R. rewrite A in R. now apply R.
Qed.

Lemma marks_of_probes csrfToken tried : marks_of (map (probe_step csrfToken) tried) = [].
Proof. induction tried as [|po tried IH]; [reflexivity | exact IH]. Qed.

Lemma port_listings_of_probes csrfToken tried :
  port_listings_of (map (probe_step csrfToken) tried) = [].
Proof. induction tried as [|po tried IH]; [reflexivity | exact IH]. Qed.

Lemma port_listings_of_app s1 s2 :
  port_listings_of (s1 ++ s2) = port_listings_of s1 ++ port_listings_of s2.
Proof. apply flat_map_app. Qed.

Ltac steps_norm :=
  repeat (rewrite ?steps_cons, ?steps_app; cbn [step_of app steps flat_map]).

Lemma attempt_body_wp attempt maxRetries :
  wp (attempt_body processName platformName attempt maxRetries)
     (fun r t => attempt_outcome processName attempt r (steps t)).
Proof.
  unfold attempt_body. cbn [wp bind console trigger execAsync].
  intros [] [err|stdout]; cbn [wp bind].
  { split.
    - eexists. split; [reflexivity|]. split; [reflexivity | constructor].
    - intros cmd answer [].
  }
  destruct (parseProcessInfo stdout) as [info|] eqn:P.
  2:{ cbn [wp bind console trigger]. intros []. split.
      - eexists. split; [reflexivity|]. split; [reflexivity | constructor].
      - intros cmd answer []. }
  cbn [wp bind console trigger]. intros [] [] [] [] [].
  apply wp_bind. eapply wp_mono; [apply getProcessListeningPorts_wp|].
  intros r t (answer & St & ->).
  destruct (candidates answer) as [|p0 ports0] eqn:C; cbn [length Nat.eqb].
  { cbn [wp bind console trigger]. intros [].
    steps_norm. rewrite St. cbn [app]. split.
    - eexists. split; [reflexivity|]. split; [reflexivity | constructor].
    - intros cmd ans Hin _. reflexivity. }
  cbn [wp bind console trigger]. intros [] [].
  apply wp_bind. eapply wp_mono; [apply findWorkingPort_wp|].
  intros r2 t2 (tried & St2 & H).
  assert (Failed : forall e tail,
    steps tail = [] ->
    attempt_outcome processName attempt (inl e)
      (AttemptStarted attempt
       :: Executed (getProcessListCommand processName) 5000 (inr stdout)
       :: Executed (getPortListCommand (pid info)) 3000 answer
       :: map (probe_step (Platform.csrfToken info)) tried ++ steps tail) ->
    attempt_outcome processName attempt (inl e)
      (steps
         (Observed (Console ConsoleLog (MsgDetecting platformName attempt maxRetries)) tt
          :: Observed (ExecAsync (getProcessListCommand processName) 5000) (inr stdout)
          :: Observed (Console ConsoleLog MsgFoundProcess) tt
          :: Observed (Console ConsoleLog (MsgPid (pid info))) tt
          :: Observed (Console ConsoleLog (MsgExtensionPort (Platform.extensionPort info))) tt
          :: Observed (Console ConsoleLog
                         (MsgCsrfToken (substring0 8 (Platform.csrfToken info)))) tt
          :: Observed (Console ConsoleLog (MsgFetchingPorts (pid info))) tt
          :: t
          ++ Observed (Console ConsoleLog
                         (MsgFoundPorts (length (p0 :: ports0)) (p0 :: ports0))) tt
             :: Observed (Console ConsoleLog MsgTestingPorts) tt :: t2 ++ tail))).
  { intros e tail Et H'. steps_norm. rewrite St, St2. cbn [app]. exact H'. }
  assert (NoCand : forall cmd ans tail,
    steps tail = [] ->
    In (cmd, ans)
       (port_listings_of
          (AttemptStarted attempt
           :: Executed (getProcessListCommand processName) 5000 (inr stdout)
           :: Executed (getPortListCommand (pid info)) 3000 answer
           :: map (probe_step (Platform.csrfToken info)) tried ++ steps tail)) ->
    candidates ans = [] -> False).
  { intros cmd ans tail Et Hin Hc. rewrite Et, app_nil_r in Hin.
    cbn in Hin. rewrite port_listings_of_probes in Hin.
    destruct Hin as [E | []]. inversion E; subst. congruence. }
  destruct H as [(-> & M & F) | [(before & q & after & -> & M & T & F)
                                  | (before & q & after & thrown & -> & M & T & F)]].
  3:{ rewrite <- (app_nil_r t2). apply (Failed _ []); [reflexivity|].
      split.
      - eexists. split; [reflexivity|]. split.
        + cbn. rewrite marks_of_app, marks_of_probes. reflexivity.
        + cbn [steps flat_map step_of app]. rewrite app_nil_r, T, map_app.
          apply none_accepted_app; [apply (none_accepted_refused _ F)|].
          cbn. constructor; [|constructor]. intros [A _]. cbn in A. discriminate A.
      - intros cmd ans Hin Hc. exfalso. eapply NoCand; eauto. reflexivity. }
  - cbn [wp bind console trigger]. intros [].
    apply (Failed _ [Observed (Console ConsoleWarn
                       (MsgAttemptWarning attempt (str "所有端口测试均失败"))) tt]);
      [reflexivity|].
    split.
    + eexists. split; [reflexivity|]. split.
      * cbn. rewrite marks_of_app, marks_of_probes. reflexivity.
      * cbn [steps flat_map step_of app]. rewrite app_nil_r.
        apply (none_accepted_refused _ F).
    + intros cmd ans Hin Hc. exfalso. eapply NoCand; eauto. reflexivity.
  - destruct (truthy_number q) eqn:Tq.
    + cbn [wp bind console trigger]. intros [] [].
      steps_norm. rewrite St, St2, T. cbn [app].
      exists stdout, info, answer, before, after.
      cbn [extensionPort connectPort csrfToken].
      rewrite map_app. cbn [map probe_step fst snd app].
      rewrite app_nil_r.
      repeat split; try assumption. rewrite C. exact M.
    + cbn [wp bind console trigger]. intros [].
      apply (Failed _ [Observed (Console ConsoleWarn
                         (MsgAttemptWarning attempt (str "所有端口测试均失败"))) tt]);
        [reflexivity|].
      split.
      * eexists. split; [reflexivity|]. split.
        -- cbn. rewrite marks_of_app, marks_of_probes. reflexivity.
        -- cbn [steps flat_map step_of app]. rewrite app_nil_r, T, map_app.
           apply none_accepted_app; [apply (none_accepted_refused _ F)|].
           cbn. constructor; [|constructor]. intros [_ A]. cbn in A. congruence.
      * intros cmd ans Hin Hc. exfalso. eapply NoCand; eauto. reflexivity.
Qed.

Lemma attempt_catch_wp attempt error :
  wp (attempt_catch attempt error) (fun r t => r = inr tt /\ steps t = []).
Proof.
  unfold attempt_catch. cbn [wp bind console trigger]. intros [].
  destruct (includes_text (str "timeout") (error_text error)).
  - cbn [wp bind console trigger]. intros []. split; reflexivity.
  - destruct (includes_text (str "not found") (error_text error)
              || includes_text (str "not recognized") (error_text error)).
    + cbn [wp bind console trigger]. intros []. split; reflexivity.
    + cbn [wp]. split; reflexivity.
Qed.

Lemma turn_wp attempt maxRetries :
  wp (try_catch
        (info <- attempt_body processName platformName attempt maxRetries ;;
         Ret (Some info))
        (fun error => attempt_catch attempt error ;; Ret None))
     (fun r t => turn_outcome processName attempt r (steps t)).
Proof.
  apply wp_try_catch. apply wp_bind.
  eapply wp_mono; [apply attempt_body_wp|].
  intros [e|c] t H.
  - apply wp_bind. eapply wp_mono; [apply attempt_catch_wp|].
    intros r t' [-> E]. cbn [wp]. rewrite !app_nil_r, steps_app, E, app_nil_r.
    exact (proj1 H).
  - cbn [wp]. rewrite app_nil_r. exact H.
Qed.

Lemma log_requirements_wp reqs :
  forall index,
    wp (log_requirements index reqs) (fun r t => r = inr tt /\ steps t = []).
Proof.
  induction reqs as [|req reqs IH]; intros index.
  - split; reflexivity.
  - cbn [log_requirements wp bind console trigger]. intros [].
    eapply wp_mono; [apply IH|]. intros r t [-> E]. split; [reflexivity | exact E].
Qed.

Lemma exhausted_wp maxRetries :
  wp (exhausted maxRetries) (fun r t => r = inr None /\ steps t = []).
Proof.
  unfold exhausted. cbn [wp bind console trigger]. intros [] [].
  apply wp_bind. eapply wp_mono; [apply log_requirements_wp|].
  intros r t [-> E]. cbn [wp]. rewrite app_nil_r. split; [reflexivity | exact E].
Qed.

Lemma attempts_from_wp maxRetries retryDelay remaining :
  forall attempt,
    wp (attempts_from processName platformName maxRetries retryDelay remaining attempt)
       (fun r t =>
          loop_outcome processName maxRetries retryDelay remaining attempt r (steps t)).
Proof.
  induction remaining as [|remaining IH]; intros attempt.
  - cbn [attempts_from]. eapply wp_mono; [apply exhausted_wp|].
    intros r t [-> E]. rewrite E. split; [reflexivity | constructor].
  - cbn [attempts_from]. apply wp_bind. eapply wp_mono; [apply turn_wp|].
    intros [e|[c|]] t H; cbn [turn_outcome] in H; [contradiction| |].
    + cbn [wp]. rewrite app_nil_r. exists 0%nat, [], (steps t).
      rewrite Nat.add_0_r.
      repeat split; [lia | constructor | exact H].
    + destruct H as (rest & Et & Mr & Nr).
      assert (Wait :
        wp (if (attempt <? maxRetries)%nat
            then console ConsoleLog (MsgWaiting retryDelay) ;; sleep retryDelay
            else Ret tt)
           (fun r t' =>
              r = inr tt
              /\ steps t' = if (attempt <? maxRetries)%nat
                            then [Delayed retryDelay] else [])).
      { destruct (attempt <? maxRetries)%nat.
        - cbn [wp bind console trigger sleep]. intros [] []. split; reflexivity.
        - split; reflexivity. }
      apply wp_bind. eapply wp_mono; [exact Wait|].
      intros r t1 [-> E1]. eapply wp_mono; [apply IH|].
      intros [e|[c|]] t2 H2; cbn [loop_outcome] in *; [contradiction| |].
      * destruct H2 as (k & s1 & s2 & Lk & E2 & M1 & N1 & S2).
        exists (S k), (steps t ++ steps t1 ++ s1), s2.
        rewrite !steps_app, E2, Et, E1.
        replace (attempt + S k)%nat with (S attempt + k)%nat by lia.
        repeat split; [lia | now rewrite <- !app_assoc | | | exact S2].
        -- rewrite !marks_of_app, M1.
           change (marks_of (AttemptStarted attempt :: rest))
             with (Attempt attempt :: marks_of rest).
           rewrite Mr. cbn [failed_marks app]. f_equal. f_equal.
           destruct (attempt <? maxRetries)%nat; reflexivity.
        -- apply (@none_accepted_app (AttemptStarted attempt :: rest));
             [exact Nr|].
           apply none_accepted_app; [|exact N1].
           destruct (attempt <? maxRetries)%nat; constructor.
      * destruct H2 as (M2 & N2).
        rewrite !steps_app, Et, E1. split.
        -- rewrite !marks_of_app, M2.
           change (marks_of (AttemptStarted attempt :: rest))
             with (Attempt attempt :: marks_of rest).
           rewrite Mr. cbn [failed_marks app]. f_equal. f_equal.
           destruct (attempt <? maxRetries)%nat; reflexivity.
        -- apply (@none_accepted_app (AttemptStarted attempt :: rest));
             [exact Nr|].
           apply none_accepted_app; [|exact N2].
           destruct (attempt <? maxRetries)%nat; constructor.
Qed.

End Facts.
End DetectorFacts.

(** ** The detector: claims *)

Module MarkFacts.
Import JS Platform Effects Detector Spec RunFacts DetectorFacts.

Lemma attempts_of_marks ss : attempts_of ss = marked_attempts (marks_of ss).
Proof.
  induction ss as [|s ss IH]; [reflexivity|].
  destruct s; cbn; try f_equal; exact IH.
Qed.

Lemma delays_of_marks ss : delays_of ss = marked_delays (marks_of ss).
Proof.
  induction ss as [|s ss IH]; [reflexivity|].
  destruct s; cbn; try f_equal; exact IH.
Qed.

Lemma marked_attempts_failed maxRetries retryDelay k :
  forall attempt,
    marked_attempts (failed_marks maxRetries retryDelay k attempt) = seq attempt k.
Proof.
  induction k as [|k IH]; intros attempt; [reflexivity|].
  cbn [failed_marks]. destruct (attempt <? maxRetries)%nat; cbn; now rewrite IH.
Qed.

(** Failed attempts up to the last one: all but attempt [maxRetries] are
    followed by a delay. *)
Lemma failed_marks_alternating maxRetries retryDelay k :
  forall attempt,
    (attempt + k = maxRetries)%nat ->
    failed_marks maxRetries retryDelay (S k) attempt
    = flat_map (fun i => [Attempt i; Delay retryDelay]) (seq attempt k)
      ++ [Attempt maxRetries].
Proof.
  induction k as [|k IH]; intros attempt E.
  - assert (attempt = maxRetries) by lia. subst attempt.
    cbn [failed_marks seq flat_map app]. now rewrite Nat.ltb_irrefl.
  - cbn [failed_marks seq flat_map app].
    replace (attempt <? maxRetries)%nat with true
      by (symmetry; apply Nat.ltb_lt; lia).
    cbn [app]. f_equal. f_equal. apply (IH (S attempt)). lia.
Qed.

Lemma failed_marks_all maxRetries retryDelay :
  failed_marks maxRetries retryDelay maxRetries 1 = alternating retryDelay maxRetries.
Proof.
  destruct maxRetries as [|n]; [reflexivity|].
  unfold alternating. apply failed_marks_alternating. lia.
Qed.

Lemma marked_delays_alternating retryDelay n :
  marked_delays (alternating retryDelay n) = repeat retryDelay (n - 1).
Proof.
  destruct n as [|n]; [reflexivity|]. unfold alternating, marked_delays.
  rewrite flat_map_app. cbn [flat_map app]. rewrite app_nil_r.
  replace (S n - 1)%nat with n by lia.
  generalize 1%nat. induction n as [|n IH]; intros a; [reflexivity|].
  cbn. f_equal. apply IH.
Qed.

Lemma successful_attempt_accepted {strategy : IPlatformStrategy}
    processName attempt c ss :
  successful_attempt processName attempt c ss ->
  exists before,
    ss = before ++ [Probed (probe_options (connectPort c) (csrfToken c)) (Response 200)]
    /\ none_accepted before
    /\ attempts_of before = [attempt]
    /\ delays_of before = []
    /\ ~ none_accepted ss.
Proof.
  intros (stdout & info & answer & failed & after & -> & P & Ep & Et & C & F & T).
  eexists (_ :: _ :: _ :: _). split; [reflexivity|].
  assert (NA : none_accepted (map (probe_step (csrfToken c)) failed))
    by now apply none_accepted_refused.
  split; [exact NA|]. split; [|split].
  - cbn. rewrite attempts_of_marks, marks_of_probes. reflexivity.
  - cbn. rewrite delays_of_marks, marks_of_probes. reflexivity.
  - unfold none_accepted. cbn. rewrite probes_of_app. cbn. intros H.
    apply Forall_app in H. destruct H as [_ H]. inversion H as [|? ? NH _]; subst.
    apply NH. split; [reflexivity | exact T].
Qed.

End MarkFacts.

Module DetectorClaims.
Import JS Platform Effects Detector Spec RunFacts DetectorFacts MarkFacts.

Section Claims.
Context {platformStrategy : IPlatformStrategy}.
Variable processName : jsstring.
Variable platformName : jsstring.
Variable World : Type.
Variable handle : forall X : Type, event X -> World -> X * World.



(** C9: when every attempt fails, that is when no probe is accepted, the
    result is [null] and the run is attempt 1, a delay of [retryDelay],
    attempt 2, a delay, ..., attempt [maxRetries]: [maxRetries] attempts,
    [maxRetries - 1] delays, none after the last attempt. *)
Theorem detectProcessInfo_delays (maxRetries : nat) (retryDelay : N) (w : World) :
  (1 <= maxRetries)%nat ->
  let outcome :=
    run handle (detectProcessInfo processName platformName maxRetries retryDelay) w in
  (none_accepted (steps (trace_of outcome)) <-> result_of outcome = inr None)
  /\ (result_of outcome = inr None ->
      marks (trace_of outcome) = alternating retryDelay maxRetries
      /\ delays (trace_of outcome) = repeat retryDelay (maxRetries - 1)
      /\ attempts (trace_of outcome) = seq 1 maxRetries).
Proof.
  intros _ outcome.
  pose proof (@wp_run _ handle _ _
                (fun r t => loop_outcome processName maxRetries retryDelay
                              maxRetries 1 r (steps t)) w
                (attempts_from_wp processName platformName maxRetries retryDelay
                   maxRetries 1)) as H.
  change (loop_outcome processName maxRetries retryDelay maxRetries 1
            (result_of outcome) (steps (trace_of outcome))) in H.
  unfold marks, delays, attempts.
  destruct (result_of outcome) as [e|[c|]]; cbn [loop_outcome] in H.
  - contradiction.
  - split; [|discriminate]. split; [|discriminate]. intros NA. exfalso.
    destruct H as (k & s1 & s2 & Lk & E & M & N1 & S2).
    destruct (successful_attempt_accepted S2) as (_ & _ & _ & _ & _ & Acc).
    apply Acc. unfold none_accepted in *. rewrite E, probes_of_app in NA.
    apply Forall_app in NA. tauto.
  - destruct H as (M & NA). split; [tauto|]. intros _.
    rewrite failed_marks_all in M. split; [exact M|]. split.
    + rewrite delays_of_marks, M. apply marked_delays_alternating.
    + rewrite attempts_of_marks, M, <- failed_marks_all.
      apply marked_attempts_failed.
Qed.

(** C8: [getProcessListeningPorts] runs the port-listing command once and
    returns the candidates of its answer, the empty list when the command
    failed: it does not throw.  An attempt whose port-listing step gave no
    candidate, by failure or by an output without ports, throws the same
    'no listening ports' error; and no error leaves [detectProcessInfo]. *)
Theorem port_listing_failure_is_no_ports :
  (forall pid w,
      exists answer,
        steps (trace_of (run handle (getProcessListeningPorts pid) w))
        = [Executed (getPortListCommand pid) 3000 answer]
        /\ result_of (run handle (getProcessListeningPorts pid) w)
           = inr (candidates answer))
  /\ (forall attempt maxRetries w cmd answer,
        In (cmd, answer)
           (port_listings
              (trace_of (run handle
                 (attempt_body processName platformName attempt maxRetries) w))) ->
        candidates answer = [] ->
        result_of (run handle
                     (attempt_body processName platformName attempt maxRetries) w)
        = inl no_listening_ports)
  /\ (forall maxRetries retryDelay w e,
        result_of (run handle
                     (detectProcessInfo processName platformName maxRetries retryDelay) w)
        <> inl e).
Proof.
  split; [|split].
  - intros pid w. unfold result_of, trace_of.
    apply (@wp_run _ handle _ _
             (fun r t => exists answer,
                  steps t = [Executed (getPortListCommand pid) 3000 answer]
                  /\ r = inr (candidates answer)) w).
    apply getProcessListeningPorts_wp.
  - intros attempt maxRetries w cmd answer.
    pose proof (@wp_run _ handle _ _
                  (fun r t => attempt_outcome processName attempt r (steps t)) w
                  (attempt_body_wp processName platformName attempt maxRetries)) as H.
    unfold result_of, trace_of, port_listings.
    destruct (fst (fst (run handle _ w))) as [e|c]; cbn [attempt_outcome] in H.
    + intros Hin Hc. f_equal. eapply (proj2 H); eauto.
    + destruct H as (stdout & info & ans & failed & after & -> & _ & _ & _ & C & _).
      cbn. rewrite port_listings_of_app, port_listings_of_probes. cbn.
      intros [E | []] Hc. inversion E; subst.
      rewrite Hc in C. now destruct (map fst failed).
  - intros maxRetries retryDelay w e E.
    pose proof (@wp_run _ handle _ _
                  (fun r t => loop_outcome processName maxRetries retryDelay
                                maxRetries 1 r (steps t)) w
                  (attempts_from_wp processName platformName maxRetries retryDelay
                     maxRetries 1)) as H.
    unfold result_of in E. unfold detectProcessInfo in E. rewrite E in H. exact H.
Qed.

End Claims.
End DetectorClaims.

Module DetectorWitnesses.
Import JS Platform Effects Detector Spec RunFacts DetectorFacts MarkFacts DetectorClaims.


Lemma detectProcessInfo_delays_witness :
  let outcome :=
    run play (@detectProcessInfo linux (str "language_server_linux") (str "Linux") 3 2000)
        script_no_ports in
  (1 <= 3)%nat
  /\ result_of outcome = inr None
  /\ marks (trace_of outcome)
     = [Attempt 1; Delay 2000; Attempt 2; Delay 2000; Attempt 3]
  /\ delays (trace_of outcome) = [2000; 2000]
  /\ attempts (trace_of outcome) = [1; 2; 3]%nat.
Proof.
  intros outcome. split; [lia|].
  assert (E : result_of outcome = inr None) by (vm_compute; reflexivity).
  split; [exact E|].
  exact (proj2 (@detectProcessInfo_delays linux (str "language_server_linux")
                  (str "Linux") script play 3%nat 2000 script_no_ports
                  (le_S _ _ (le_S _ _ (le_n 1)))) E).
Defined.

Lemma port_listing_failure_is_no_ports_witness :
  result_of (run play (@attempt_body linux (str "language_server_linux")
                         (str "Linux") 1 3) script_port_listing_fails)
  = inl no_listening_ports.
Proof.
  apply (proj1 (proj2 (@port_listing_failure_is_no_ports linux
                         (str "language_server_linux") (str "Linux") script play))
           1%nat 3%nat script_port_listing_fails
           (LsofOrNetstat (num 4412))
           (inl {| message := str "Command failed: lsof" |})).
  - vm_compute. left. reflexivity.
  - reflexivity.
Defined.

End DetectorWitnesses.

(** ** Facts about parts of a text *)

Module TextFacts.
Import JS Regex Platform Detector Spec RegexFacts NumberFacts ParserFacts ProcessInfoFacts LineFacts.

Lemma substring_of_refl s : substring_of s s.
Proof. exists [], []. now rewrite app_nil_r. Qed.

Lemma substring_of_trans a b c :
  substring_of a b -> substring_of b c -> substring_of a c.
Proof.
  intros (p1 & q1 & ->) (p2 & q2 & ->).
  exists (p2 ++ p1), (q1 ++ q2). now rewrite <- !app_assoc.
Qed.

Lemma substring_of_app_r a b pre : substring_of a b -> substring_of a (pre ++ b).
Proof.
  intros (p & q & ->). exists (pre ++ p), q. now rewrite <- app_assoc.
Qed.

Lemma substring_of_app_l a b post : substring_of a b -> substring_of a (b ++ post).
Proof.
  intros (p & q & ->). exists p, (q ++ post). now rewrite <- !app_assoc.
Qed.

Lemma dropWhile_suffix p s : exists pre, s = pre ++ dropWhile p s.
Proof.
  induction s as [|c s (pre & IH)]; simpl.
  - exists []. reflexivity.
  - destruct (p c); [exists (c :: pre); simpl; now f_equal | exists []; reflexivity].
Qed.

Lemma trim_substring s : substring_of (trim s) s.
Proof.
  unfold trim, trimEnd, trimStart.
  destruct (dropWhile_suffix is_space s) as (pre & E).
  destruct (dropWhile_suffix is_space (rev (dropWhile is_space s))) as (pre2 & E2).
  exists pre, (rev pre2). rewrite <- rev_app_distr, <- E2, rev_involutive. exact E.
Qed.

Lemma split_on_substring sep s :
  forall cur line, In line (split_on sep cur s) -> substring_of line (rev cur ++ s).
Proof.
  induction s as [|c s IH]; simpl; intros cur line H.
  - destruct H as [<- | []]. rewrite app_nil_r. apply substring_of_refl.
  - destruct (c =? sep).
    + destruct H as [<- | H].
      * apply substring_of_app_l. apply substring_of_refl.
      * apply substring_of_app_r. apply (substring_of_app_r [c]).
        apply (IH [] line H).
    + apply IH in H. simpl in H. now rewrite <- app_assoc in H.
Qed.

Lemma line_substring stdout line :
  In line (split_lines (trim stdout)) -> substring_of line stdout.
Proof.
  intros H. apply split_on_substring in H. simpl in H.
  eapply substring_of_trans; [exact H | apply trim_substring].
Qed.

Lemma occurs_substring r a b : occurs r a -> substring_of a b -> occurs r b.
Proof.
  intros (p & x & q & caps & -> & M) (p2 & q2 & ->).
  exists (p2 ++ p), x, (q ++ q2), caps. split; [|exact M].
  now rewrite <- !app_assoc.
Qed.

(** [hay.includes(needle)] decides [substring_of]. *)
Lemma starts_with_prefix needle :
  forall hay, starts_with needle hay = true <-> exists after, hay = needle ++ after.
Proof.
  induction needle as [|a needle IH]; intros hay; simpl.
  - split; [eauto | reflexivity].
  - destruct hay as [|b hay].
    + split; [discriminate | intros (after & E); discriminate].
    + rewrite andb_true_iff, N.eqb_eq, IH. split.
      * intros (-> & after & ->). eauto.
      * intros (after & E). inversion E; subst. eauto.
Qed.

Lemma includes_text_substring needle hay :
  includes_text needle hay = true <-> substring_of needle hay.
Proof.
  induction hay as [|b hay IH]; simpl.
  - rewrite orb_false_r, starts_with_prefix. split.
    + intros (after & E). exists [], after. exact E.
    + intros ([|c before] & after & E); [eauto|discriminate].
  - rewrite orb_true_iff, starts_with_prefix, IH. split.
    + intros [(after & E) | (before & after & E)].
      * exists [], after. exact E.
      * exists (b :: before), after. simpl. now f_equal.
    + intros ([|c before] & after & E).
      * left. eauto.
      * right. inversion E; subst. exists before, after. reflexivity.
Qed.

End TextFacts.

(** ** Greedy captures *)

Module GreedyFacts.
Import JS Regex Platform Spec RegexFacts NumberFacts ParserFacts ProcessInfoFacts
  LineFacts TextFacts.

Lemma takeWhile_dropWhile p s : takeWhile p s ++ dropWhile p s = s.
Proof.
  induction s as [|c s IH]; simpl; [reflexivity|].
  destruct (p c); simpl; [now f_equal | reflexivity].
Qed.

Lemma takeWhile_all p s : Forall (fun c => p c = true) (takeWhile p s).
Proof.
  induction s as [|c s IH]; simpl; [constructor|].
  destruct (p c) eqn:E; constructor; assumption.
Qed.

Lemma dropWhile_ends p s : ends_run p (dropWhile p s).
Proof.
  induction s as [|c s IH]; simpl; [exact I|].
  destruct (p c) eqn:E; [exact IH | exact E].
Qed.

(** With a continuation that always accepts, the greedy star takes the
    whole run. *)
Lemma star_match_greedy (R : Type) p (k : jsstring -> option R) :
  (forall s, k s <> None) ->
  forall s, star_match p s k = k (dropWhile p s).
Proof.
  intros K. induction s as [|c s IH]; simpl; [reflexivity|].
  destruct (p c); [|reflexivity]. rewrite IH.
  destruct (k (dropWhile p s)) eqn:E; [reflexivity|]. now apply K in E.
Qed.

Lemma last_group_greedy i p s caps s' caps' :
  rmatch (Group i (Plus p)) s caps (fun s1 c1 => Some (s1, c1)) = Some (s', caps') ->
  exists value,
    s = value ++ s' /\ run_of p value /\ ends_run p s'
    /\ caps' = (i, value) :: caps.
Proof.
  simpl. destruct s as [|c s]; [discriminate|].
  destruct (p c) eqn:Hc; [|discriminate].
  rewrite star_match_greedy by discriminate.
  intros E. inversion E; subst.
  assert (S : c :: s = (c :: takeWhile p s) ++ dropWhile p s)
    by (simpl; now rewrite takeWhile_dropWhile).
  exists (c :: takeWhile p s). split; [exact S|].
  split; [split; [discriminate | constructor; [exact Hc | apply takeWhile_all]]|].
  split; [apply dropWhile_ends|].
  rewrite S at 1. now rewrite consumed_app.
Qed.

Lemma exec_at_inv r s :
  forall i m,
    exec_at r i s = Some m ->
    exists before suffix,
      s = before ++ suffix
      /\ match_here r suffix = Some (rest m, groups m).
Proof.
  induction s as [|c s IH]; intros i m; simpl.
  - destruct (match_here r []) as [[s' caps]|] eqn:H; [|discriminate].
    intros E. inversion E; subst. exists [], []. auto.
  - destruct (match_here r (c :: s)) as [[s' caps]|] eqn:H.
    + intros E. inversion E; subst. exists [], (c :: s). auto.
    + intros E. apply IH in E. destruct E as (before & suffix & -> & M).
      exists (c :: before), suffix. auto.
Qed.

(** A flag pattern [flag[=\s]+(class+)]: the value it captures. *)
Lemma flag_pattern_value (eqv : char -> char -> bool) (flag : jsstring)
    (class : char -> bool) raw m :
  exec (Seq (fold_right (fun c r => Seq (Chr (eqv c)) r) Eps flag)
            (Seq (Plus eq_or_space) (Group 1 (Plus class)))) raw = Some m ->
  exists value,
    group m 1 = Some value /\ flag_value eqv flag class raw value.
Proof.
  intros E. apply exec_at_inv in E. destruct E as (before & suffix & -> & M).
  unfold match_here in M. cbn [rmatch] in M.
  apply rmatch_sound in M. destruct M as (name & s1 & caps1 & -> & M1 & M).
  apply matches_chars_inv in M1. destruct M1 as [F ->].
  change (rmatch (Plus eq_or_space) s1 []
            (fun s' caps' =>
               rmatch (Group 1 (Plus class)) s' caps' (fun s2 c2 => Some (s2, c2)))
          = Some (rest m, groups m)) in M.
  apply rmatch_sound in M. destruct M as (seps & s2 & caps2 & -> & M2 & M).
  apply matches_plus_inv in M2. destruct M2 as (NE & FS & ->).
  apply last_group_greedy in M. destruct M as (value & -> & RV & EV & C).
  exists value. split.
  - unfold group. rewrite C. reflexivity.
  - exists before, name, seps, (rest m). repeat split; try assumption.
    apply RV. apply RV.
Qed.

Lemma found_token_value raw token :
  found_token raw = Some token ->
  flag_value ci_eq (str "--csrf_token") is_token_char raw token.
Proof.
  unfold found_token. intros H. apply and_group_inv in H.
  destruct H as (m & E & G).
  apply (@flag_pattern_value ci_eq (str "--csrf_token") is_token_char) in E.
  destruct E as (value & G' & V). congruence.
Qed.

Lemma extension_port_group raw m :
  exec re_extension_port raw = Some m ->
  exists value,
    group m 1 = Some value
    /\ flag_value N.eqb (str "--extension_server_port") is_digit raw value.
Proof.
  exact (@flag_pattern_value N.eqb (str "--extension_server_port") is_digit raw m).
Qed.

Lemma and_group_run m class value :
  group m 1 = Some value -> run_of class value -> and_group (Some m) 1 = Some value.
Proof.
  intros G [NE _]. unfold and_group. rewrite G.
  destruct value; [congruence | reflexivity].
Qed.

Lemma declared_port_value raw :
  (exec re_extension_port raw = None /\ declared_port raw = num 0)
  \/ exists value,
       flag_value N.eqb (str "--extension_server_port") is_digit raw value
       /\ declared_port raw = parseInt value.
Proof.
  unfold declared_port.
  destruct (exec re_extension_port raw) as [m|] eqn:E.
  - right. destruct (@extension_port_group raw m E) as (value & G & V).
    exists value. split; [exact V|].
    assert (R : run_of is_digit value)
      by (destruct V as (_ & _ & _ & _ & _ & _ & _ & R & _); exact R).
    now rewrite (@and_group_run m is_digit value G R).
  - left. split; reflexivity.
Qed.

Lemma windows_pid_value raw pid :
  windows_pid raw = Some pid ->
  exists value,
    field_value (str "ProcessId=") is_digit raw value /\ pid = parseInt value.
Proof.
  unfold windows_pid. destruct (and_group (exec re_process_id raw) 1) as [g|] eqn:H;
    [|discriminate].
  intros E. inversion E; subst. apply and_group_inv in H.
  destruct H as (m & X & G). apply exec_at_inv in X.
  destruct X as (before & suffix & -> & M).
  unfold match_here, re_process_id, seq in M. cbn [rmatch] in M.
  apply rmatch_sound in M. destruct M as (name & s1 & caps1 & -> & M1 & M).
  apply matches_lit_inv in M1. destruct M1 as [-> ->].
  apply last_group_greedy in M. destruct M as (value & -> & RV & EV & C).
  unfold group in G. rewrite C in G. simpl in G. inversion G; subst.
  exists g. split; [|reflexivity]. exists before, (rest m). auto.
Qed.

End GreedyFacts.

(** ** The process information parsers: further properties *)

Module ProcessInfoExtras.
Import JS Regex Platform Spec RegexFacts NumberFacts ParserFacts ProcessInfoFacts
  LineFacts TextFacts GreedyFacts.

(** X1: [parseProcessInfo] returns a record exactly when a pid is parsed
    and a token is found; its fields are then that pid, that token and the
    declared port.  Unix reads the pid off the second column of the first
    line, windows off the [ProcessId=] field. *)
Theorem parseProcessInfo_present (stdout : jsstring) (info : ProcessInfo) :
  (Unix.parseProcessInfo stdout = Some info
   <-> unix_pid stdout = Some (pid info)
       /\ found_token stdout = Some (csrfToken info)
       /\ declared_port stdout = extensionPort info)
  /\ (Windows.parseProcessInfo stdout = Some info
      <-> windows_pid stdout = Some (pid info)
          /\ found_token stdout = Some (csrfToken info)
          /\ declared_port stdout = extensionPort info).
Proof.
  rewrite unix_process_info, windows_process_info. unfold process_info.
  split.
  - destruct (unix_pid stdout) as [p|], (found_token stdout) as [t|];
      (split; [intros E; inversion E; subst; auto | intros (E1 & E2 & E3)]);
      try discriminate.
    inversion E1; inversion E2; subst. rewrite E3. now destruct info.
  - destruct (windows_pid stdout) as [p|], (found_token stdout) as [t|];
      (split; [intros E; inversion E; subst; auto | intros (E1 & E2 & E3)]);
      try discriminate.
    inversion E1; inversion E2; subst. rewrite E3. now destruct info.
Qed.

Lemma parseProcessInfo_present_witness :
  Unix.parseProcessInfo ps_line
  = Some {| pid := num 4412; extensionPort := num 2873;
            csrfToken := str "ab12cd34-ef56" |}.
Proof.
  apply (proj1 (parseProcessInfo_present ps_line
                  {| pid := num 4412; extensionPort := num 2873;
                     csrfToken := str "ab12cd34-ef56" |})).
  repeat split; vm_compute; reflexivity.
Defined.

(** X2: the token either parser returns stands in the raw output after
    the flag [--csrf_token] (in any letter case) and a separator run of
    [=] or white space; it is a non-empty run of hexadecimal digits and
    dashes, and it is the whole run: the next character, if any, is not a
    token character. *)
Theorem csrfToken_run (stdout : jsstring) (info : ProcessInfo) :
  Unix.parseProcessInfo stdout = Some info
  \/ Windows.parseProcessInfo stdout = Some info ->
  flag_value ci_eq (str "--csrf_token") is_token_char stdout (csrfToken info).
Proof.
  intros H. apply found_token_value.
  destruct H as [H | H];
    [apply (proj1 (parseProcessInfo_present stdout info)) in H
    |apply (proj2 (parseProcessInfo_present stdout info)) in H]; tauto.
Qed.

Lemma csrfToken_run_witness :
  flag_value ci_eq (str "--csrf_token") is_token_char ps_line (str "ab12cd34-ef56").
Proof.
  apply (@csrfToken_run ps_line
           {| pid := num 4412; extensionPort := num 2873;
              csrfToken := str "ab12cd34-ef56" |}).
  left. vm_compute. reflexivity.
Defined.

Lemma digits_run g : run_of is_digit g -> digits g.
Proof. exact (fun H => H). Qed.

(** X3: the numbers of a parsed record.  The declared port is 0 when the
    port flag has no match, and otherwise [parseInt] of the whole digit
    run after the flag: never NaN, never negative.  The windows pid is
    [parseInt] of the whole digit run after [ProcessId=], likewise; the
    unix pid is never NaN. *)
Theorem parsed_numbers (stdout : jsstring) (info : ProcessInfo) :
  (Unix.parseProcessInfo stdout = Some info ->
   is_number (pid info) /\ is_port (extensionPort info))
  /\ (Windows.parseProcessInfo stdout = Some info ->
      is_port (pid info) /\ is_port (extensionPort info)
      /\ exists value,
           field_value (str "ProcessId=") is_digit stdout value
           /\ pid info = parseInt value)
  /\ (Unix.parseProcessInfo stdout = Some info
      \/ Windows.parseProcessInfo stdout = Some info ->
      (exec re_extension_port stdout = None /\ extensionPort info = num 0)
      \/ exists value,
           flag_value N.eqb (str "--extension_server_port") is_digit stdout value
           /\ extensionPort info = parseInt value).
Proof.
  assert (DP : is_port (declared_port stdout)).
  { destruct (declared_port_value stdout) as [[_ ->] | (v & (_ & _ & _ & _ & _ & _ & _ & R & _) & ->)];
      [exact I | now apply parseInt_digits]. }
  split; [|split].
  - intros H. apply (proj1 (parseProcessInfo_present stdout info)) in H.
    destruct H as (P & _ & D). rewrite <- D. split; [|exact DP].
    unfold unix_pid in P. destruct (second_column (first_line stdout)) as [s|];
      [|discriminate].
    destruct (isNaN (parseInt s)) eqn:N; [discriminate|].
    inversion P as [E]. intros X. rewrite X in N. discriminate.
  - intros H. apply (proj2 (parseProcessInfo_present stdout info)) in H.
    destruct H as (P & _ & D). rewrite <- D.
    destruct (windows_pid_value _ P) as (v & FV & E).
    split; [|split; [exact DP | eauto]].
    rewrite E. apply parseInt_digits. destruct FV as (_ & _ & _ & R & _). exact R.
  - intros H.
    assert (D : declared_port stdout = extensionPort info).
    { destruct H as [H | H];
        [apply (proj1 (parseProcessInfo_present stdout info)) in H
        |apply (proj2 (parseProcessInfo_present stdout info)) in H]; tauto. }
    rewrite <- D. apply declared_port_value.
Qed.

Lemma parsed_numbers_witness :
  is_number (num 4412) /\ is_port (num 2873).
Proof.
  apply (proj1 (@parsed_numbers ps_line
                  {| pid := num 4412; extensionPort := num 2873;
                     csrfToken := str "ab12cd34-ef56" |})).
  vm_compute. reflexivity.
Defined.

End ProcessInfoExtras.

(** ** The longest run of digits *)

Module PortRunFacts.
Import JS Regex Platform Spec RegexFacts NumberFacts ParserFacts ProcessInfoFacts
  LineFacts TextFacts GreedyFacts.

(** The greedy star returns the result of the longest run its
    continuation accepts. *)
Lemma star_match_longest (R : Type) p (k : jsstring -> option R) :
  forall s res,
    star_match p s k = Some res ->
    exists x s',
      s = x ++ s'
      /\ Forall (fun c => p c = true) x
      /\ k s' = Some res
      /\ forall y z,
           y <> [] -> s' = y ++ z -> Forall (fun c => p c = true) y -> k z = None.
Proof.
  induction s as [|c s IH]; simpl; intros res H.
  - exists [], []. repeat split; auto.
    intros y z NE E. destruct y; [congruence | discriminate].
  - assert (Stop : k (c :: s) = Some res ->
                   star_match p s k = None \/ p c = false ->
                   exists x s',
                     c :: s = x ++ s' /\ Forall (fun c => p c = true) x
                     /\ k s' = Some res
                     /\ forall y z, y <> [] -> s' = y ++ z ->
                                    Forall (fun c => p c = true) y -> k z = None).
    { intros K N. exists [], (c :: s). repeat split; auto.
      intros y z NE E F. destruct y as [|c' y]; [congruence|].
      inversion E; subst. inversion F; subst.
      destruct N as [N | N]; [|congruence].
      destruct (k z) eqn:Kz; [|reflexivity]. exfalso.
      apply (@star_match_complete R p y z k); [assumption | congruence | exact N]. }
    destruct (p c) eqn:Hc; [|apply Stop; auto].
    destruct (star_match p s k) as [r|] eqn:Hs; [|apply Stop; auto].
    inversion H; subst. destruct (IH _ eq_refl) as (x & s' & -> & F & K & L).
    exists (c :: x), s'. repeat split; auto.
Qed.

(** [.*] then literal text, after a run of digits: if it matches after a
    shorter run of digits it matches after a longer one. *)
Lemma any_lit_skips_digits (b : String.string) b0 btail y z caps1 caps2 :
  str b = b0 :: btail -> is_digit b0 = false ->
  Forall (fun c => is_digit c = true) y ->
  rmatch (Seq (Star any_char) (lit b)) (y ++ z) caps1
         (fun s c => Some (s, c)) <> None ->
  rmatch (Seq (Star any_char) (lit b)) z caps2
         (fun s c => Some (s, c)) <> None.
Proof.
  intros Eb Hb Fy H.
  destruct (rmatch _ (y ++ z) caps1 _) as [res|] eqn:M; [clear H|congruence].
  apply rmatch_sound in M. destruct M as (x & s' & caps' & E & Mx & _).
  apply matches_seq_inv in Mx. destruct Mx as (u & v & c1 & -> & Mu & Mv).
  apply matches_star_inv in Mu. destruct Mu as [Fu ->].
  apply matches_lit_inv in Mv. destruct Mv as [-> ->].
  rewrite Eb in E. rewrite <- app_assoc in E.
  assert (P : exists u', u = y ++ u').
  { clear - E Fy Hb. revert u E. induction Fy as [|c y Hc Fy IH]; intros u E.
    - exists u. reflexivity.
    - destruct u as [|c' u].
      + simpl in E. inversion E; subst. congruence.
      + simpl in E. inversion E; subst. destruct (IH u H1) as (u' & ->). exists u'. reflexivity. }
  destruct P as (u' & ->). rewrite <- app_assoc in E. apply app_inv_head in E.
  subst z.
  replace (u' ++ (b0 :: btail) ++ s') with ((u' ++ str b) ++ s')
    by (now rewrite Eb, <- app_assoc).
  apply rmatch_complete with (caps' := caps2); [|discriminate].
  apply matches_seq with (caps1 := caps2).
  - constructor. apply Forall_app in Fu. tauto.
  - clear. unfold lit. generalize (str b). intros l.
    induction l as [|c l IH]; simpl; [constructor|].
    apply (@matches_seq _ _ [c] l caps2 caps2 caps2); [|exact IH].
    constructor. apply N.eqb_refl.
Qed.

Lemma ends_run_app_l class a b : a <> [] -> ends_run class a -> ends_run class (a ++ b).
Proof. destruct a; [congruence | auto]. Qed.

(** A listening pattern [host(\d+).*word]: what it matches and captures. *)
Lemma listening_match (host word : String.string) (i : nat) w0 wtail
    (suffix rest : jsstring) (caps : captures) :
  str word = w0 :: wtail -> is_digit w0 = false ->
  rmatch (Seq (lit host)
              (Seq (Group i (Plus is_digit)) (Seq (Star any_char) (lit word))))
         suffix [] (fun s c => Some (s, c)) = Some (rest, caps) ->
  exists g y,
    suffix = str host ++ g ++ y ++ str word ++ rest
    /\ run_of is_digit g
    /\ ends_run is_digit (y ++ str word)
    /\ Forall (fun c => any_char c = true) y
    /\ caps = [(i, g)].
Proof.
  intros Ew Hw M.
  change (rmatch (lit host) suffix []
            (fun s1 c1 =>
               rmatch (Seq (Group i (Plus is_digit))
                           (Seq (Star any_char) (lit word))) s1 c1
                      (fun s c => Some (s, c))) = Some (rest, caps)) in M.
  apply rmatch_sound in M. destruct M as (x & s1 & caps1 & -> & Mh & M).
  apply matches_lit_inv in Mh. destruct Mh as [-> ->].
  change (match s1 with
          | [] => None
          | c :: s' =>
              if is_digit c
              then star_match is_digit s'
                     (fun s'' =>
                        rmatch (Seq (Star any_char) (lit word)) s''
                               [(i, consumed s1 s'')] (fun s c => Some (s, c)))
              else None
          end = Some (rest, caps)) in M.
  destruct s1 as [|c s2]; [discriminate|].
  destruct (is_digit c) eqn:Hc; [|discriminate].
  apply star_match_longest in M.
  destruct M as (x & s' & -> & Fx & K & Longest).
  assert (G : consumed (c :: x ++ s') s' = c :: x)
    by (change (c :: x ++ s') with ((c :: x) ++ s'); apply consumed_app).
  rewrite G in K.
  assert (End : ends_run is_digit s').
  { destruct s' as [|d s'']; [exact I|]. simpl.
    destruct (is_digit d) eqn:Hd; [|reflexivity]. exfalso.
    assert (N : rmatch (Seq (Star any_char) (lit word)) s''
                  [(i, consumed (c :: x ++ d :: s'') s'')]
                  (fun s c => Some (s, c)) = None).
    { apply (Longest [d] s''); [discriminate | reflexivity | repeat constructor; exact Hd]. }
    revert N.
    apply (@any_lit_skips_digits word w0 wtail [d] s'' [(i, c :: x)]);
      [exact Ew | exact Hw | repeat constructor; exact Hd |].
    simpl app. intros Z.
    assert (A : Some (rest, caps) = None) by (rewrite <- K; exact Z).
    discriminate A. }
  apply rmatch_sound in K. destruct K as (m & s3 & caps3 & -> & Mm & K).
  inversion K; subst.
  apply matches_seq_inv in Mm. destruct Mm as (y & v & c1 & -> & My & Mv).
  apply matches_star_inv in My. destruct My as [Fy ->].
  apply matches_lit_inv in Mv. destruct Mv as [-> ->].
  exists (c :: x), y. repeat split.
  - simpl. now rewrite <- !app_assoc.
  - discriminate.
  - constructor; assumption.
  - rewrite <- app_assoc in End. destruct y as [|y0 y]; simpl in *.
    + rewrite Ew in *. simpl in *. exact End.
    + exact End.
  - exact Fy.
Qed.

Lemma word_paren : str "(LISTEN)" = 40 :: str "LISTEN" ++ [41].
Proof. vm_compute. reflexivity. Qed.

Lemma word_plain : str "LISTEN" = 76 :: tl (str "LISTEN").
Proof. vm_compute. reflexivity. Qed.

Lemma listening_entry_plain host line before g y rest :
  line = before ++ str host ++ g ++ y ++ str "LISTEN" ++ rest ->
  run_of is_digit g -> ends_run is_digit (y ++ str "LISTEN") ->
  Forall (fun c => any_char c = true) y ->
  listening_entry (str host) line (parseInt g).
Proof.
  intros -> R E F. exists before, g, y, rest. repeat split; try assumption.
  apply R. apply R.
Qed.

Lemma listening_entry_paren host line before g y rest :
  line = before ++ str host ++ g ++ y ++ str "(LISTEN)" ++ rest ->
  run_of is_digit g -> ends_run is_digit (y ++ str "(LISTEN)") ->
  Forall (fun c => any_char c = true) y ->
  listening_entry (str host) line (parseInt g).
Proof.
  intros -> R E F. exists before, g, (y ++ [40]), (41 :: rest).
  rewrite word_paren in *. split.
  - rewrite <- !app_assoc. reflexivity.
  - split; [exact R|]. split; [|split; [|reflexivity]].
    + destruct y; simpl in *; [reflexivity | exact E].
    + apply Forall_app. split; [exact F | repeat constructor].
Qed.

End PortRunFacts.

(** ** Where a reported port is written: unix *)

Module PortEntryFacts.
Import JS Regex Platform Spec RegexFacts NumberFacts ParserFacts ProcessInfoFacts
  LineFacts TextFacts GreedyFacts PortRunFacts.

Lemma in_push_new ports x p : In p (push_new ports x) -> In p ports \/ p = x.
Proof.
  unfold push_new, push. destruct (includes ports x); [auto|].
  intros H. apply in_app_or in H. destruct H as [H | [<- | []]]; auto.
Qed.

Lemma push_new_incl ports x p : In p ports -> In p (push_new ports x).
Proof.
  unfold push_new, push. destruct (includes ports x); [auto|].
  intros H. apply in_or_app. now left.
Qed.

Lemma push_new_nonempty ports x : push_new ports x <> [].
Proof.
  unfold push_new, push. destruct (includes ports x) eqn:E.
  - destruct ports; [discriminate | discriminate].
  - destruct ports; discriminate.
Qed.

Lemma lsof_entry line g :
  and_group (exec re_lsof line) 1 = Some g ->
  listening_entry (str "127.0.0.1:") line (parseInt g).
Proof.
  intros H. apply and_group_inv in H. destruct H as (m & E & G).
  apply exec_at_inv in E. destruct E as (before & suffix & -> & M).
  unfold match_here, re_lsof, seq in M.
  apply (@listening_match "127.0.0.1:" "(LISTEN)" 1 40 (str "LISTEN" ++ [41])) in M;
    [|apply word_paren | reflexivity].
  destruct M as (g' & y & -> & R & En & F & C).
  unfold group in G. rewrite C in G. simpl in G. inversion G; subst.
  eapply listening_entry_paren; eauto.
Qed.

Lemma netstat_entry_unix line g :
  and_group (exec re_netstat line) 1 = Some g ->
  listening_entry (str "127.0.0.1:") line (parseInt g).
Proof.
  intros H. apply and_group_inv in H. destruct H as (m & E & G).
  apply exec_at_inv in E. destruct E as (before & suffix & -> & M).
  unfold match_here, re_netstat, seq in M.
  apply (@listening_match "127.0.0.1:" "LISTEN" 1 76 (tl (str "LISTEN"))) in M;
    [|apply word_plain | reflexivity].
  destruct M as (g' & y & -> & R & En & F & C).
  unfold group in G. rewrite C in G. simpl in G. inversion G; subst.
  eapply listening_entry_plain; eauto.
Qed.

Lemma localhost_entry line m :
  exec re_localhost line = Some m ->
  listening_entry (str "localhost:") line
    (parseInt_value (or_group (group m 1) (group m 2))).
Proof.
  intros E. apply exec_at_inv in E. destruct E as (before & suffix & -> & M).
  unfold match_here, re_localhost, seq in M. cbn [rmatch] in M.
  match type of M with
  | match ?a with _ => _ end = _ => destruct a as [[s1 c1]|] eqn:M1
  end.
  - inversion M; subst.
    apply (@listening_match "localhost:" "(LISTEN)" 1 40 (str "LISTEN" ++ [41])) in M1;
      [|apply word_paren | reflexivity].
    destruct M1 as (g & y & Es & R & En & F & C).
    assert (LE : listening_entry (str "localhost:") (before ++ suffix) (parseInt g))
      by (eapply listening_entry_paren; eauto; now rewrite Es).
    unfold group. rewrite C. cbn [lookup Nat.eqb or_group].
    replace (truthy_string g) with true
      by (destruct R as [NE _]; destruct g; [congruence | reflexivity]).
    exact LE.
  - apply (@listening_match "localhost:" "LISTEN" 2 76 (tl (str "LISTEN"))) in M;
      [|apply word_plain | reflexivity].
    destruct M as (g & y & Es & R & En & F & C).
    assert (LE : listening_entry (str "localhost:") (before ++ suffix) (parseInt g))
      by (eapply listening_entry_plain; eauto; now rewrite Es).
    unfold group. rewrite C. exact LE.
Qed.

Lemma scan_line_entry ports line p :
  In p (Unix.scan_line ports line) ->
  In p ports
  \/ listening_entry (str "127.0.0.1:") line p
  \/ listening_entry (str "localhost:") line p.
Proof.
  unfold Unix.scan_line.
  destruct (and_group (exec re_lsof line) 1) as [g|] eqn:E1.
  { intros H. apply in_push_new in H. destruct H as [H | ->]; [auto|].
    right. left. now apply lsof_entry. }
  destruct (and_group (exec re_netstat line) 1) as [g|] eqn:E2.
  { intros H. apply in_push_new in H. destruct H as [H | ->]; [auto|].
    right. left. now apply netstat_entry_unix. }
  destruct (exec re_localhost line) as [m|] eqn:E3; [|auto].
  intros H. apply in_push_new in H. destruct H as [H | ->]; [auto|].
  right. right. now apply localhost_entry.
Qed.

Lemma listening_entry_substring host line text p :
  listening_entry host line p -> substring_of line text ->
  listening_entry host text p.
Proof.
  intros (before & g & mid & after & -> & R & E & F & P) (pre & post & ->).
  exists (pre ++ before), g, mid, (after ++ post).
  repeat split; try assumption; try apply R.
  now rewrite <- !app_assoc.
Qed.

Lemma fold_scan_line_entry lines :
  forall ports p,
    In p (fold_left Unix.scan_line lines ports) ->
    In p ports
    \/ exists line,
         In line lines
         /\ (listening_entry (str "127.0.0.1:") line p
             \/ listening_entry (str "localhost:") line p).
Proof.
  induction lines as [|l lines IH]; cbn [fold_left In]; intros ports p H; [auto|].
  apply IH in H. destruct H as [H | (line & Hin & E)].
  - apply scan_line_entry in H. destruct H as [H | H]; [auto|].
    right. exists l. auto.
  - right. exists line. auto.
Qed.

Lemma unix_ports_entries stdout p :
  In p (Unix.parseListeningPorts stdout) ->
  listening_entry (str "127.0.0.1:") stdout p
  \/ listening_entry (str "localhost:") stdout p.
Proof.
  unfold Unix.parseListeningPorts.
  destruct (negb (truthy_string stdout) || (length (trim stdout) =? 0)%nat);
    [intros []|].
  intros H.
  assert (PS : port_set (fold_left Unix.scan_line (split_lines (trim stdout)) []))
    by (apply fold_scan_line_port_set, port_set_nil).
  destruct PS as [P ND]. apply (proj2 (sort_ascending P ND)) in H.
  apply fold_scan_line_entry in H. destruct H as [[] | (line & Hin & E)].
  apply line_substring in Hin.
  destruct E as [E | E]; [left | right]; eapply listening_entry_substring; eauto.
Qed.

End PortEntryFacts.

(** ** Where a reported port is written: windows; empty results *)

Module WindowsEntryFacts.
Import JS Regex Platform Spec RegexFacts NumberFacts ParserFacts ProcessInfoFacts
  LineFacts TextFacts GreedyFacts PortRunFacts PortEntryFacts.

Lemma windows_match_shape x caps :
  matches re_windows_listening x [] caps ->
  exists g gap1 gap2,
    x = str "127.0.0.1:" ++ g ++ gap1 ++ str "0.0.0.0:0" ++ gap2 ++ str "LISTENING"
    /\ run_of is_digit g /\ run_of is_space gap1 /\ run_of is_space gap2
    /\ caps = [(1%nat, g)].
Proof.
  unfold re_windows_listening, seq. intros H.
  apply matches_seq_inv in H. destruct H as (x1 & y1 & c1 & -> & H1 & H).
  apply matches_lit_inv in H1. destruct H1 as [-> ->].
  apply matches_seq_inv in H. destruct H as (x2 & y2 & c2 & -> & H2 & H).
  apply matches_group_inv in H2. destruct H2 as (c2' & H2 & ->).
  apply matches_plus_inv in H2. destruct H2 as (NE & F & ->).
  apply matches_seq_inv in H. destruct H as (x3 & y3 & c3 & -> & H3 & H).
  apply matches_plus_inv in H3. destruct H3 as (NE3 & F3 & ->).
  apply matches_seq_inv in H. destruct H as (x4 & y4 & c4 & -> & H4 & H).
  apply matches_lit_inv in H4. destruct H4 as [-> ->].
  apply matches_seq_inv in H. destruct H as (x5 & y5 & c5 & -> & H5 & H).
  apply matches_plus_inv in H5. destruct H5 as (NE5 & F5 & ->).
  apply matches_lit_inv in H. destruct H as [-> ->].
  exists x2, x3, x5. repeat split; assumption.
Qed.

Lemma windows_exec_entry s m :
  exec re_windows_listening s = Some m ->
  netstat_entry s (parseInt_value (group m 1))
  /\ substring_of (rest m) s.
Proof.
  intros E. apply exec_sound in E. destruct E as (before & Es & M).
  apply windows_match_shape in M.
  destruct M as (g & gap1 & gap2 & Ex & R & R1 & R2 & C).
  split.
  - unfold group. rewrite C. cbn [lookup Nat.eqb parseInt_value].
    exists before, g, gap1, gap2, (rest m). repeat split; try assumption;
      try apply R; try apply R1; try apply R2.
    rewrite Es, Ex. now rewrite <- !app_assoc.
  - exists (before ++ matched m), []. rewrite app_nil_r, <- app_assoc. exact Es.
Qed.

Lemma netstat_entry_substring a b p :
  netstat_entry a p -> substring_of a b -> netstat_entry b p.
Proof.
  intros (before & g & gap1 & gap2 & after & -> & R & R1 & R2 & P) (pre & post & ->).
  exists (pre ++ before), g, gap1, gap2, (after ++ post).
  repeat split; try assumption; try apply R; try apply R1; try apply R2.
  now rewrite <- !app_assoc.
Qed.

Lemma exec_loop_entries fuel :
  forall s ports ports' p,
    Windows.exec_loop fuel s ports = Some ports' ->
    In p ports' -> In p ports \/ netstat_entry s p.
Proof.
  induction fuel as [|fuel IH]; intros s ports ports' p; simpl; [discriminate|].
  destruct (exec re_windows_listening s) as [m|] eqn:E.
  - intros H Hin. destruct (windows_exec_entry _ E) as (En & Sub).
    destruct (IH _ _ _ p H Hin) as [Hp | Hp].
    + apply in_push_new in Hp. destruct Hp as [Hp | ->]; auto.
    + right. eapply netstat_entry_substring; eauto.
  - intros H Hin. inversion H; subst. auto.
Qed.

Lemma exec_loop_keeps fuel :
  forall s ports ports' p,
    Windows.exec_loop fuel s ports = Some ports' -> In p ports -> In p ports'.
Proof.
  induction fuel as [|fuel IH]; intros s ports ports' p; simpl; [discriminate|].
  destruct (exec re_windows_listening s) as [m|] eqn:E.
  - intros H Hin. eapply IH; [exact H|]. now apply push_new_incl.
  - intros H Hin. inversion H; subst. exact Hin.
Qed.

Lemma sort_length l : length (sort l) = length l.
Proof.
  unfold sort.
  assert (I : forall x acc, length (insert_sorted x acc) = S (length acc)).
  { intros x acc. induction acc as [|y acc IH]; simpl; [reflexivity|].
    destruct (compare_sub x y); simpl; now rewrite ?IH. }
  assert (F : forall l acc,
             length (fold_left (fun acc x => insert_sorted x acc) l acc)
             = (length l + length acc)%nat).
  { clear l. induction l as [|x l IH]; intros acc; simpl; [reflexivity|].
    rewrite IH, I. lia. }
  rewrite F. simpl. lia.
Qed.

Lemma sort_nil_iff l : sort l = [] <-> l = [].
Proof.
  split; [|intros ->; reflexivity].
  intros H. apply (f_equal (@length _)) in H. rewrite sort_length in H.
  now apply length_zero_iff_nil.
Qed.

Lemma windows_ports_entries stdout p :
  In p (Windows.parseListeningPorts stdout) -> netstat_entry stdout p.
Proof.
  unfold Windows.parseListeningPorts.
  destruct (@exec_loop_terminates (S (length stdout)) stdout [])
    as (ports & E & [P ND]); [lia | apply port_set_nil |].
  rewrite E. intros H. apply (proj2 (sort_ascending P ND)) in H.
  destruct (@exec_loop_entries _ _ _ _ p E H) as [[] | En]. exact En.
Qed.

Lemma windows_ports_empty_iff stdout :
  Windows.parseListeningPorts stdout = [] <-> ~ occurs re_windows_listening stdout.
Proof.
  split; [|apply windows_ports_unrecognized].
  intros H O. apply exec_none_iff in O; [exact O|]. clear O.
  destruct (exec re_windows_listening stdout) as [m|] eqn:E; [|reflexivity].
  exfalso. revert H. unfold Windows.parseListeningPorts.
  destruct (@exec_loop_terminates (S (length stdout)) stdout [])
    as (ports & L & _); [lia | apply port_set_nil |].
  rewrite L. rewrite sort_nil_iff. intros ->.
  cbn [Windows.exec_loop] in L. rewrite E in L.
  assert (Hin : In (parseInt_value (group m 1))
                   (push_new [] (parseInt_value (group m 1))))
    by (left; reflexivity).
  exact (@exec_loop_keeps _ _ _ _ _ L Hin).
Qed.

Lemma scan_line_keeps ports line p : In p ports -> In p (Unix.scan_line ports line).
Proof.
  intros H. unfold Unix.scan_line.
  destruct (and_group (exec re_lsof line) 1); [now apply push_new_incl|].
  destruct (and_group (exec re_netstat line) 1); [now apply push_new_incl|].
  destruct (exec re_localhost line); [now apply push_new_incl | exact H].
Qed.

Lemma fold_scan_line_keeps lines :
  forall ports p, In p ports -> In p (fold_left Unix.scan_line lines ports).
Proof.
  induction lines as [|l lines IH]; cbn [fold_left]; intros ports p H; [exact H|].
  apply IH. now apply scan_line_keeps.
Qed.

Lemma group_of_digit_match r s m g :
  exec r s = Some m -> groups m = [(1%nat, g)] -> run_of is_digit g ->
  and_group (exec r s) 1 = Some g.
Proof.
  intros E C [NE _]. rewrite E. unfold and_group, group. rewrite C. simpl.
  destruct g; [congruence | reflexivity].
Qed.

Lemma scan_line_recognized ports line :
  occurs re_lsof line \/ occurs re_netstat line \/ occurs re_localhost line ->
  Unix.scan_line ports line <> [].
Proof.
  intros H. unfold Unix.scan_line.
  destruct (and_group (exec re_lsof line) 1) as [g|] eqn:E1;
    [apply push_new_nonempty|].
  destruct (and_group (exec re_netstat line) 1) as [g|] eqn:E2;
    [apply push_new_nonempty|].
  destruct (exec re_localhost line) as [m|] eqn:E3; [apply push_new_nonempty|].
  exfalso. destruct H as [O | [O | O]].
  - destruct (exec re_lsof line) as [m|] eqn:X;
      [|revert O; now apply exec_none_iff].
    pose proof X as X'. apply exec_at_inv in X'.
    destruct X' as (before & suffix & _ & M). unfold match_here, re_lsof, seq in M.
    apply (@listening_match "127.0.0.1:" "(LISTEN)" 1 40 (str "LISTEN" ++ [41])) in M;
      [|apply word_paren | reflexivity].
    destruct M as (g & y & _ & R & _ & _ & C).
    rewrite <- X in E1. rewrite (@group_of_digit_match _ _ _ _ X C R) in E1. discriminate.
  - destruct (exec re_netstat line) as [m|] eqn:X;
      [|revert O; now apply exec_none_iff].
    pose proof X as X'. apply exec_at_inv in X'.
    destruct X' as (before & suffix & _ & M). unfold match_here, re_netstat, seq in M.
    apply (@listening_match "127.0.0.1:" "LISTEN" 1 76 (tl (str "LISTEN"))) in M;
      [|apply word_plain | reflexivity].
    destruct M as (g & y & _ & R & _ & _ & C).
    rewrite <- X in E2. rewrite (@group_of_digit_match _ _ _ _ X C R) in E2. discriminate.
  - revert O. now apply exec_none_iff.
Qed.

Lemma unix_ports_empty_iff stdout :
  Unix.parseListeningPorts stdout = []
  <-> forall line, In line (split_lines (trim stdout)) ->
        ~ occurs re_lsof line /\ ~ occurs re_netstat line
        /\ ~ occurs re_localhost line.
Proof.
  split; [|apply unix_ports_unrecognized].
  intros H line Hin.
  assert (G : ~ (occurs re_lsof line \/ occurs re_netstat line
                 \/ occurs re_localhost line)); [|tauto].
  intros O. revert H. unfold Unix.parseListeningPorts.
  destruct (negb (truthy_string stdout) || (length (trim stdout) =? 0)%nat) eqn:B.
  - intros _.
    assert (T : trim stdout = []).
    { apply orb_true_iff in B. destruct B as [B|B].
      - destruct stdout; [reflexivity | discriminate].
      - apply Nat.eqb_eq in B. now apply length_zero_iff_nil. }
    rewrite T in Hin. destruct Hin as [<- | []].
    destruct O as [O | [O | O]]; revert O; apply exec_none_iff; vm_compute; reflexivity.
  - rewrite sort_nil_iff. intros E.
    apply in_split in Hin. destruct Hin as (l1 & l2 & El). rewrite El in E.
    rewrite fold_left_app in E. cbn [fold_left] in E.
    pose proof (@scan_line_recognized (fold_left Unix.scan_line l1 []) line O) as NE.
    destruct (Unix.scan_line (fold_left Unix.scan_line l1 []) line) as [|q qs] eqn:S;
      [congruence|].
    assert (Hq : In q (fold_left Unix.scan_line l2 (q :: qs)))
      by (apply fold_scan_line_keeps; now left).
    rewrite E in Hq. exact Hq.
Qed.

End WindowsEntryFacts.

(** ** The port parsers: further properties *)

Module PortExtras.
Import JS Regex Platform Spec RegexFacts NumberFacts ParserFacts ProcessInfoFacts
  LineFacts TextFacts GreedyFacts PortRunFacts PortEntryFacts WindowsEntryFacts.

(** X4: every port [parseListeningPorts] reports is written in the
    output.  Unix: after [127.0.0.1:] or [localhost:], as a whole run of
    digits, with the word LISTEN further on the same line.  Windows: in a
    part [127.0.0.1:<digits> <spaces> 0.0.0.0:0 <spaces> LISTENING]. *)
Theorem reported_ports_are_listed (stdout : jsstring) (p : number) :
  (In p (Unix.parseListeningPorts stdout) ->
   listening_entry (str "127.0.0.1:") stdout p
   \/ listening_entry (str "localhost:") stdout p)
  /\ (In p (Windows.parseListeningPorts stdout) -> netstat_entry stdout p).
Proof.
  split; [apply unix_ports_entries | apply windows_ports_entries].
Qed.

Lemma reported_ports_are_listed_witness :
  (listening_entry (str "127.0.0.1:") lsof_layout (num 2873)
   \/ listening_entry (str "localhost:") lsof_layout (num 2873))
  /\ netstat_entry windows_layout (num 2873).
Proof.
  split.
  - apply (proj1 (reported_ports_are_listed lsof_layout (num 2873))).
    vm_compute. left. reflexivity.
  - apply (proj2 (reported_ports_are_listed windows_layout (num 2873))).
    vm_compute. left. reflexivity.
Defined.

(** X5: [parseListeningPorts] returns the empty list only when nothing
    is recognized: on unix when no line of the trimmed output has a match
    of one of the three patterns, on windows when the output has no match
    of the netstat pattern. *)
Theorem no_ports_iff_unrecognized (stdout : jsstring) :
  (Unix.parseListeningPorts stdout = []
   <-> forall line, In line (split_lines (trim stdout)) ->
         ~ occurs re_lsof line /\ ~ occurs re_netstat line
         /\ ~ occurs re_localhost line)
  /\ (Windows.parseListeningPorts stdout = []
      <-> ~ occurs re_windows_listening stdout).
Proof.
  split; [apply unix_ports_empty_iff | apply windows_ports_empty_iff].
Qed.

Lemma no_ports_iff_unrecognized_witness :
  ~ occurs re_windows_listening lsof_layout
  /\ Windows.parseListeningPorts (str "Active Connections") = [].
Proof.
  split.
  - apply (proj1 (proj2 (no_ports_iff_unrecognized lsof_layout))).
    vm_compute. reflexivity.
  - apply (proj2 (proj2 (no_ports_iff_unrecognized (str "Active Connections")))).
    apply exec_none_iff. vm_compute. reflexivity.
Defined.

Lemma entry_host host text p : listening_entry host text p -> substring_of host text.
Proof.
  intros (before & g & mid & after & -> & _). exists before, (g ++ mid ++ str "LISTEN" ++ after).
  reflexivity.
Qed.

Lemma entry_word host text p :
  listening_entry host text p -> substring_of (str "LISTEN") text.
Proof.
  intros (before & g & mid & after & -> & _).
  exists (before ++ host ++ g ++ mid), after. now rewrite <- !app_assoc.
Qed.

Lemma netstat_entry_host text p :
  netstat_entry text p -> substring_of (str "127.0.0.1:") text.
Proof.
  intros (before & g & gap1 & gap2 & after & -> & _).
  eexists before, _. reflexivity.
Qed.

Lemma netstat_entry_word text p :
  netstat_entry text p -> substring_of (str "LISTEN") text.
Proof.
  intros (before & g & gap1 & gap2 & after & -> & _).
  exists (before ++ str "127.0.0.1:" ++ g ++ gap1 ++ str "0.0.0.0:0" ++ gap2),
         (str "ING" ++ after).
  rewrite <- !app_assoc. reflexivity.
Qed.

(** X6: sockets on other addresses and sockets that do not listen are not
    reported: an output without the text [127.0.0.1:] (and, on unix,
    without [localhost:]), or without the word LISTEN, gives no port. *)
Theorem other_sockets_ignored (stdout : jsstring) :
  (~ substring_of (str "127.0.0.1:") stdout ->
   ~ substring_of (str "localhost:") stdout ->
   Unix.parseListeningPorts stdout = [])
  /\ (~ substring_of (str "127.0.0.1:") stdout ->
      Windows.parseListeningPorts stdout = [])
  /\ (~ substring_of (str "LISTEN") stdout ->
      Unix.parseListeningPorts stdout = []
      /\ Windows.parseListeningPorts stdout = []).
Proof.
  assert (U : forall P : Prop,
             (forall p, In p (Unix.parseListeningPorts stdout) -> P) ->
             ~ P -> Unix.parseListeningPorts stdout = []).
  { intros P H N. destruct (Unix.parseListeningPorts stdout) as [|p l];
      [reflexivity|]. exfalso. apply N, (H p). now left. }
  assert (W : forall P : Prop,
             (forall p, In p (Windows.parseListeningPorts stdout) -> P) ->
             ~ P -> Windows.parseListeningPorts stdout = []).
  { intros P H N. destruct (Windows.parseListeningPorts stdout) as [|p l];
      [reflexivity|]. exfalso. apply N, (H p). now left. }
  split; [|split].
  - intros N1 N2.
    apply (U (substring_of (str "127.0.0.1:") stdout
              \/ substring_of (str "localhost:") stdout)); [|tauto].
    intros p Hin. apply unix_ports_entries in Hin.
    destruct Hin as [E | E]; [left | right]; eapply entry_host; eauto.
  - intros N. apply (W (substring_of (str "127.0.0.1:") stdout)); [|exact N].
    intros p Hin. eapply netstat_entry_host, windows_ports_entries; eauto.
  - intros N. split.
    + apply (U (substring_of (str "LISTEN") stdout)); [|exact N].
      intros p Hin. apply unix_ports_entries in Hin.
      destruct Hin as [E | E]; eapply entry_word; eauto.
    + apply (W (substring_of (str "LISTEN") stdout)); [|exact N].
      intros p Hin. eapply netstat_entry_word, windows_ports_entries; eauto.
Qed.

Lemma other_sockets_ignored_witness :
  Unix.parseListeningPorts (str "node 812 user 21u IPv4 0x1f TCP 192.168.1.5:8000 (LISTEN)") = []
  /\ Windows.parseListeningPorts (str "TCP 0.0.0.0:135 0.0.0.0:0 LISTENING 4") = []
  /\ Unix.parseListeningPorts (str "node 812 user 21u IPv4 0x1f TCP 127.0.0.1:8000 (ESTABLISHED)") = [].
Proof.
  assert (D : forall needle hay,
             Detector.includes_text needle hay = false -> ~ substring_of needle hay).
  { intros needle hay E S. apply includes_text_substring in S. congruence. }
  split; [|split].
  - apply (proj1 (other_sockets_ignored _)); apply D; vm_compute; reflexivity.
  - apply (proj1 (proj2 (other_sockets_ignored _))); apply D; vm_compute; reflexivity.
  - apply (proj2 (proj2 (other_sockets_ignored _))); apply D; vm_compute; reflexivity.
Defined.

End PortExtras.

(** ** The detector, step by step *)

Module GrammarFacts.
Import JS Platform Effects Detector Spec RunFacts DetectorFacts MarkFacts.
Local Open Scope prog_scope.

Section Facts.
Context {platformStrategy : IPlatformStrategy}.
Variable processName : jsstring.
Variable platformName : jsstring.

Ltac steps_flat :=
  repeat (rewrite ?steps_cons, ?steps_app; cbn [step_of app steps flat_map]).

Lemma attempt_body_run attempt maxRetries :
  wp (attempt_body processName platformName attempt maxRetries)
     (fun r t => attempt_run processName attempt (steps t) r).
Proof.
  unfold attempt_body. cbn [wp bind console trigger execAsync].
  intros [] [err|stdout]; cbn [wp bind].
  { apply attempt_listing_failed. }
  destruct (parseProcessInfo stdout) as [info|] eqn:P.
  2:{ cbn [wp bind console trigger]. intros []. now apply attempt_not_found. }
  cbn [wp bind console trigger]. intros [] [] [] [] [].
  apply wp_bind. eapply wp_mono; [apply getProcessListeningPorts_wp|].
  intros r t (answer & St & ->).
  destruct (candidates answer) as [|p0 ports0] eqn:C; cbn [length Nat.eqb].
  { cbn [wp bind console trigger]. intros [].
    steps_flat. rewrite St. cbn [app].
    now apply attempt_no_ports with (info := info). }
  cbn [wp bind console trigger]. intros [] [].
  apply wp_bind. eapply wp_mono; [apply findWorkingPort_wp|].
  intros r2 t2 Pr.
  assert (NE : candidates answer <> []) by (rewrite C; discriminate).
  rewrite <- C in Pr.
  assert (Shape : forall tail res,
    steps tail = [] ->
    (forall found, r2 = inr found -> res = verdict info found) ->
    (forall e, r2 <> inl e) ->
    attempt_run processName attempt
      (steps
         (Observed (Console ConsoleLog (MsgDetecting platformName attempt maxRetries)) tt
          :: Observed (ExecAsync (getProcessListCommand processName) 5000) (inr stdout)
          :: Observed (Console ConsoleLog MsgFoundProcess) tt
          :: Observed (Console ConsoleLog (MsgPid (pid info))) tt
          :: Observed (Console ConsoleLog (MsgExtensionPort (Platform.extensionPort info))) tt
          :: Observed (Console ConsoleLog
                         (MsgCsrfToken (substring0 8 (Platform.csrfToken info)))) tt
          :: Observed (Console ConsoleLog (MsgFetchingPorts (pid info))) tt
          :: t
          ++ Observed (Console ConsoleLog
                         (MsgFoundPorts (length (p0 :: ports0)) (p0 :: ports0))) tt
             :: Observed (Console ConsoleLog MsgTestingPorts) tt :: t2 ++ tail))
      res).
  { intros tail res Et V NI. steps_flat. rewrite St, Et, app_nil_r. cbn [app].
    destruct r2 as [e|found]; [now destruct (NI e)|].
    rewrite (V found eq_refl). now apply attempt_probed. }
  destruct r2 as [e|[q|]].
  - steps_flat. rewrite St. cbn [app]. now apply attempt_probe_threw.
  - cbn [wp bind]. destruct (truthy_number q) eqn:Tq.
    + cbn [wp bind console trigger]. intros [] [].
      apply (Shape [Observed (Console ConsoleLog (MsgAttemptSucceeded attempt)) tt;
                    Observed (Console ConsoleLog (MsgApiPort q)) tt]);
        [reflexivity | | discriminate].
      intros found E. inversion E; subst. unfold verdict. now rewrite Tq.
    + cbn [wp bind console trigger]. intros [].
      apply (Shape [Observed (Console ConsoleWarn
                      (MsgAttemptWarning attempt (str "所有端口测试均失败"))) tt]);
        [reflexivity | | discriminate].
      intros found E. inversion E; subst. unfold verdict. now rewrite Tq.
  - cbn [wp bind console trigger]. intros [].
    apply (Shape [Observed (Console ConsoleWarn
                    (MsgAttemptWarning attempt (str "所有端口测试均失败"))) tt]);
      [reflexivity | | discriminate].
    intros found E. inversion E; subst. reflexivity.
Qed.

Lemma attempts_from_run maxRetries retryDelay remaining :
  forall attempt,
    wp (attempts_from processName platformName maxRetries retryDelay remaining attempt)
       (fun r t =>
          exists result,
            r = inr result
            /\ detect_run processName maxRetries retryDelay remaining attempt
                 (steps t) result).
Proof.
  induction remaining as [|remaining IH]; intros attempt.
  - cbn [attempts_from]. eapply wp_mono; [apply exhausted_wp|].
    intros r t [-> E]. rewrite E. exists None. split; [reflexivity | constructor].
  - cbn [attempts_from]. apply wp_bind. apply wp_try_catch. apply wp_bind.
    eapply wp_mono; [apply attempt_body_run|].
    intros [e|c] t H.
    + apply wp_bind. eapply wp_mono; [apply attempt_catch_wp|].
      intros r t' [-> E]. cbn [wp].
      assert (Wait :
        wp (if (attempt <? maxRetries)%nat
            then console ConsoleLog (MsgWaiting retryDelay) ;; sleep retryDelay
            else Ret tt)
           (fun r t' =>
              r = inr tt
              /\ steps t' = if (attempt <? maxRetries)%nat
                            then [Delayed retryDelay] else [])).
      { destruct (attempt <? maxRetries)%nat.
        - cbn [wp bind console trigger sleep]. intros [] []. split; reflexivity.
        - split; reflexivity. }
      apply wp_bind. eapply wp_mono; [exact Wait|].
      intros r t1 [-> E1]. eapply wp_mono; [apply IH|].
      intros r2 t2 (result & -> & D). exists result. split; [reflexivity|].
      rewrite !app_nil_r, !steps_app, E, E1, app_nil_r.
      eapply detect_retry; eauto.
    + cbn [wp]. exists (Some c). split; [reflexivity|].
      rewrite !app_nil_r. now apply detect_success.
Qed.

End Facts.
End GrammarFacts.

(** ** Counting the steps of a run *)

Module CountFacts.
Import JS Platform Effects Detector Spec RunFacts DetectorFacts MarkFacts GrammarFacts.

Lemma probing_prefix ports csrfToken r ss :
  probing ports csrfToken r ss ->
  exists tried rest,
    ss = map (probe_step csrfToken) tried /\ ports = map fst tried ++ rest.
Proof.
  intros (tried & -> & [(_ & <- & _)
    | [(before & p & after & _ & -> & -> & _)
      | (before & p & after & error & _ & -> & -> & _)]]).
  - exists tried, []. now rewrite app_nil_r.
  - exists (before ++ [(p, Response 200)]), after.
    split; [reflexivity|]. rewrite map_app. simpl. now rewrite <- app_assoc.
  - exists (before ++ [(p, RequestThrown error)]), after.
    split; [reflexivity|]. rewrite map_app. simpl. now rewrite <- app_assoc.
Qed.

Lemma attempts_of_probes csrfToken tried :
  attempts_of (map (probe_step csrfToken) tried) = [].
Proof. induction tried as [|po tried IH]; [reflexivity | exact IH]. Qed.

Lemma delays_of_probes csrfToken tried :
  delays_of (map (probe_step csrfToken) tried) = [].
Proof. induction tried as [|po tried IH]; [reflexivity | exact IH]. Qed.

Lemma process_listings_of_probes csrfToken tried :
  process_listings_of (map (probe_step csrfToken) tried) = [].
Proof. induction tried as [|po tried IH]; [reflexivity | exact IH]. Qed.

Lemma executions_of_probes csrfToken tried :
  executions_of (map (probe_step csrfToken) tried) = [].
Proof. induction tried as [|po tried IH]; [reflexivity | exact IH]. Qed.

Lemma probes_of_probes csrfToken tried :
  probes_of (map (probe_step csrfToken) tried)
  = map (fun po => (probe_options (fst po) csrfToken, snd po)) tried.
Proof.
  induction tried as [|po tried IH]; [reflexivity|]. cbn. now rewrite <- IH.
Qed.

Lemma process_listings_of_app s1 s2 :
  process_listings_of (s1 ++ s2) = process_listings_of s1 ++ process_listings_of s2.
Proof. apply flat_map_app. Qed.

Lemma executions_of_app s1 s2 :
  executions_of (s1 ++ s2) = executions_of s1 ++ executions_of s2.
Proof. apply flat_map_app. Qed.

Section Counts.
Context {platformStrategy : IPlatformStrategy}.
Variable processName : jsstring.

(** What one attempt contributes to the counts. *)
Lemma attempt_run_counts attempt ss r :
  attempt_run processName attempt ss r ->
  attempts_of ss = [attempt]
  /\ delays_of ss = []
  /\ length (process_listings_of ss) = 1%nat
  /\ (length (port_listings_of ss) <= 1)%nat.
Proof.
  intros H. destruct H as [err|stdout P|stdout info answer P C
                          |stdout info answer found ss P C Pr
                          |stdout info answer error ss P C Pr].
  - repeat split; auto.
  - repeat split; auto.
  - repeat split; auto.
  - apply probing_prefix in Pr. destruct Pr as (tried & rest & -> & _).
    cbn. rewrite attempts_of_probes, delays_of_probes,
      process_listings_of_probes, port_listings_of_probes.
    repeat split; auto.
  - apply probing_prefix in Pr. destruct Pr as (tried & rest & -> & _).
    cbn. rewrite attempts_of_probes, delays_of_probes,
      process_listings_of_probes, port_listings_of_probes.
    repeat split; auto.
Qed.

Lemma detect_run_counts maxRetries retryDelay remaining attempt ss r :
  detect_run processName maxRetries retryDelay remaining attempt ss r ->
  (attempt + remaining = maxRetries + 1)%nat ->
  exists k,
    (k <= remaining)%nat
    /\ (remaining = 0%nat \/ 1 <= k)%nat
    /\ attempts_of ss = seq attempt k
    /\ delays_of ss = repeat retryDelay (k - 1)
    /\ length (process_listings_of ss) = k
    /\ (length (port_listings_of ss) <= k)%nat.
Proof.
  induction 1 as [attempt|remaining attempt ss c A
                 |remaining attempt ss e ss' r A D IH]; intros E.
  - exists 0%nat. repeat split; auto.
  - destruct (attempt_run_counts A) as (A1 & A2 & A3 & A4).
    exists 1%nat. repeat split; auto; lia.
  - destruct (attempt_run_counts A) as (A1 & A2 & A3 & A4).
    destruct IH as (k & Lk & Pk & I1 & I2 & I3 & I4); [lia|].
    exists (S k).
    rewrite !attempts_of_app, !delays_of_app, !process_listings_of_app,
      !port_listings_of_app, A1, A2, I1, I2, !length_app, A3, I3.
    assert (W : (attempts_of (if (attempt <? maxRetries)%nat
                              then [Delayed retryDelay] else []) = [])
                /\ process_listings_of (if (attempt <? maxRetries)%nat
                                        then [Delayed retryDelay] else []) = []
                /\ port_listings_of (if (attempt <? maxRetries)%nat
                                     then [Delayed retryDelay] else []) = [])
      by (destruct (attempt <? maxRetries)%nat; repeat split; reflexivity).
    destruct W as (W1 & W2 & W3). rewrite W1, W2, W3. cbn [app length].
    split; [lia|]. split; [right; lia|]. split; [reflexivity|].
    split; [|split; [lia | lia]].
    replace (S k - 1)%nat with k by lia.
    destruct Pk as [-> | Pk].
    + destruct k as [|k]; [|lia].
      replace (attempt <? maxRetries)%nat with false
        by (symmetry; apply Nat.ltb_ge; lia).
      reflexivity.
    + replace (attempt <? maxRetries)%nat with true
        by (symmetry; apply Nat.ltb_lt; lia).
      cbn [delays_of flat_map app]. destruct k as [|k]; [lia|].
      cbn. now rewrite Nat.sub_0_r.
Qed.

End Counts.
End CountFacts.

(** ** Where probes and commands come from; the order of probes *)

Module ProvenanceFacts.
Import JS Platform Effects Detector Spec RunFacts DetectorFacts MarkFacts GrammarFacts
  CountFacts.

Section Provenance.
Context {platformStrategy : IPlatformStrategy}.
Variable processName : jsstring.

Lemma probe_from_app_l s1 s2 o : probe_from processName s1 o -> probe_from processName (s1 ++ s2) o.
Proof.
  intros (stdout & info & answer & H1 & P & H2 & H3 & E).
  exists stdout, info, answer.
  rewrite process_listings_of_app, port_listings_of_app.
  repeat split; auto using in_or_app.
Qed.

Lemma probe_from_app_r s1 s2 o : probe_from processName s2 o -> probe_from processName (s1 ++ s2) o.
Proof.
  intros (stdout & info & answer & H1 & P & H2 & H3 & E).
  exists stdout, info, answer.
  rewrite process_listings_of_app, port_listings_of_app.
  repeat split; auto using in_or_app.
Qed.

Lemma command_from_app_l s1 s2 ct : command_from processName s1 ct -> command_from processName (s1 ++ s2) ct.
Proof.
  intros [H | (stdout & info & H1 & P & E)]; [now left|].
  right. exists stdout, info. rewrite process_listings_of_app.
  repeat split; auto using in_or_app.
Qed.

Lemma command_from_app_r s1 s2 ct : command_from processName s2 ct -> command_from processName (s1 ++ s2) ct.
Proof.
  intros [H | (stdout & info & H1 & P & E)]; [now left|].
  right. exists stdout, info. rewrite process_listings_of_app.
  repeat split; auto using in_or_app.
Qed.

Lemma attempt_run_provenance attempt ss r :
  attempt_run processName attempt ss r ->
  (forall o out, In (o, out) (probes_of ss) -> probe_from processName ss o)
  /\ (forall ct, In ct (executions_of ss) -> command_from processName ss ct).
Proof.
  intros H. destruct H as [err|stdout P|stdout info answer P C
                          |stdout info answer found ss P C Pr
                          |stdout info answer error ss P C Pr].
  - split; [intros o out []|]. intros ct [<- | []]. now left.
  - split; [intros o out []|]. intros ct [<- | []]. now left.
  - split; [intros o out []|]. intros ct [<- | [<- | []]]; [now left|].
    right. exists stdout, info. repeat split; auto. now left.
  - apply probing_prefix in Pr. destruct Pr as (tried & rest & -> & Ec).
    split.
    + intros o out Hin. cbn in Hin. rewrite probes_of_probes in Hin.
      apply in_map_iff in Hin. destruct Hin as ([p out'] & E & Hin).
      inversion E; subst. exists stdout, info, answer.
      cbn. rewrite process_listings_of_probes, port_listings_of_probes.
      repeat split; auto; try (now left).
      rewrite Ec. apply in_or_app. left.
      apply in_map_iff. exists (p, out). auto.
    + intros ct Hin. cbn in Hin. rewrite executions_of_probes in Hin.
      destruct Hin as [<- | [<- | []]]; [now left|].
      right. exists stdout, info. repeat split; auto. now left.
  - apply probing_prefix in Pr. destruct Pr as (tried & rest & -> & Ec).
    split.
    + intros o out Hin. cbn in Hin. rewrite probes_of_probes in Hin.
      apply in_map_iff in Hin. destruct Hin as ([p out'] & E & Hin).
      inversion E; subst. exists stdout, info, answer.
      cbn. rewrite process_listings_of_probes, port_listings_of_probes.
      repeat split; auto; try (now left).
      rewrite Ec. apply in_or_app. left.
      apply in_map_iff. exists (p, out). auto.
    + intros ct Hin. cbn in Hin. rewrite executions_of_probes in Hin.
      destruct Hin as [<- | [<- | []]]; [now left|].
      right. exists stdout, info. repeat split; auto. now left.
Qed.

Lemma detect_run_provenance maxRetries retryDelay remaining attempt ss r :
  detect_run processName maxRetries retryDelay remaining attempt ss r ->
  (forall o out, In (o, out) (probes_of ss) -> probe_from processName ss o)
  /\ (forall ct, In ct (executions_of ss) -> command_from processName ss ct).
Proof.
  induction 1 as [attempt|remaining attempt ss c A
                 |remaining attempt ss e ss' r A D IH].
  - split; [intros o out [] | intros ct []].
  - now apply attempt_run_provenance in A.
  - apply attempt_run_provenance in A. destruct A as [A1 A2], IH as [I1 I2].
    assert (W : probes_of (if (attempt <? maxRetries)%nat
                           then [Delayed retryDelay] else []) = []
                /\ executions_of (if (attempt <? maxRetries)%nat
                                  then [Delayed retryDelay] else []) = [])
      by (destruct (attempt <? maxRetries)%nat; split; reflexivity).
    destruct W as [W1 W2]. split.
    + intros o out Hin. rewrite !probes_of_app, W1 in Hin. cbn [app] in Hin.
      apply in_app_or in Hin. destruct Hin as [Hin | Hin].
      * apply probe_from_app_l. eauto.
      * apply probe_from_app_r, probe_from_app_r. eauto.
    + intros ct Hin. rewrite !executions_of_app, W2 in Hin. cbn [app] in Hin.
      apply in_app_or in Hin. destruct Hin as [Hin | Hin].
      * apply command_from_app_l. eauto.
      * apply command_from_app_r, command_from_app_r. eauto.
Qed.

End Provenance.

(** *** Consecutive probes *)

Lemma adjacent_from_head prev b :
  no_probe_head b -> adjacent_from prev b = adjacent_probes b.
Proof. destruct b as [|[] b]; intros H; try reflexivity. destruct H. Qed.

Lemma adjacent_from_app a b :
  no_probe_head b ->
  forall prev, adjacent_from prev (a ++ b) = adjacent_from prev a ++ adjacent_probes b.
Proof.
  intros Hb. induction a as [|s a IH]; intros prev.
  - now apply adjacent_from_head.
  - destruct s; cbn [app adjacent_from]; rewrite IH; try reflexivity.
    now rewrite app_assoc.
Qed.

Lemma adjacent_probes_app a b :
  no_probe_head b ->
  adjacent_probes (a ++ b) = adjacent_probes a ++ adjacent_probes b.
Proof. intros Hb. now apply adjacent_from_app. Qed.

Lemma adjacent_from_sorted csrfToken tried :
  forall p,
    ascending (p :: map fst tried) ->
    Forall increasing
      (adjacent_from (Some p) (map (probe_step csrfToken) tried)).
Proof.
  induction tried as [|[q o] tried IH]; intros p S; [constructor|].
  cbn [map probe_step fst snd adjacent_from app port probe_options].
  apply StronglySorted_inv in S. destruct S as [S F].
  constructor.
  - inversion F; subst. assumption.
  - apply IH. exact S.
Qed.

Lemma adjacent_probes_sorted csrfToken tried :
  ascending (map fst tried) ->
  Forall increasing (adjacent_probes (map (probe_step csrfToken) tried)).
Proof.
  destruct tried as [|[p o] tried]; intros S; [constructor|].
  apply (adjacent_from_sorted csrfToken tried S).
Qed.

Lemma ascending_prefix a b : ascending (a ++ b) -> ascending a.
Proof.
  induction a as [|x a IH]; intros S; [constructor|].
  apply StronglySorted_inv in S. destruct S as [S F].
  constructor; [now apply IH|]. apply Forall_app in F. tauto.
Qed.

Lemma shipped_candidates strategy answer :
  shipped strategy -> ascending (@candidates strategy answer).
Proof.
  intros [(platform & ->) | ->]; destruct answer as [e|stdout]; cbn;
    try constructor.
  - apply ParserFacts.unix_ports_ascending.
  - apply ParserFacts.windows_ports_ascending.
Qed.

Section Order.
Context {platformStrategy : IPlatformStrategy}.
Variable processName : jsstring.
Hypothesis Shipped : shipped platformStrategy.

Lemma attempt_run_order attempt ss r :
  attempt_run processName attempt ss r ->
  no_probe_head ss /\ Forall increasing (adjacent_probes ss).
Proof.
  intros H. destruct H as [err|stdout P|stdout info answer P C
                          |stdout info answer found ss P C Pr
                          |stdout info answer error ss P C Pr].
  - split; [exact I | constructor].
  - split; [exact I | constructor].
  - split; [exact I | constructor].
  - split; [exact I|].
    apply probing_prefix in Pr. destruct Pr as (tried & rest & -> & Ec).
    assert (A : ascending (map fst tried)).
    { apply ascending_prefix with (b := rest). rewrite <- Ec.
      now apply shipped_candidates. }
    apply (adjacent_probes_sorted (Platform.csrfToken info) tried A).
  - split; [exact I|].
    apply probing_prefix in Pr. destruct Pr as (tried & rest & -> & Ec).
    assert (A : ascending (map fst tried)).
    { apply ascending_prefix with (b := rest). rewrite <- Ec.
      now apply shipped_candidates. }
    apply (adjacent_probes_sorted (Platform.csrfToken info) tried A).
Qed.

Lemma detect_run_order maxRetries retryDelay remaining attempt ss r :
  detect_run processName maxRetries retryDelay remaining attempt ss r ->
  no_probe_head ss /\ Forall increasing (adjacent_probes ss).
Proof.
  induction 1 as [attempt|remaining attempt ss c A
                 |remaining attempt ss e ss' r A D IH].
  - split; [exact I | constructor].
  - now apply attempt_run_order in A.
  - apply attempt_run_order in A. destruct A as [A1 A2], IH as [I1 I2].
    assert (Hd : no_probe_head
                   ((if (attempt <? maxRetries)%nat
                     then [Delayed retryDelay] else []) ++ ss'))
      by (destruct (attempt <? maxRetries)%nat; [exact I | exact I1]).
    split.
    + destruct ss as [|s ss]; [exact Hd|]. exact A1.
    + rewrite adjacent_probes_app by exact Hd. apply Forall_app. split; [exact A2|].
      destruct (attempt <? maxRetries)%nat; [|exact I2]. exact I2.
Qed.

End Order.
End ProvenanceFacts.

(** ** The detector: further properties *)

Module DetectorExtras.
Import JS Platform Effects Detector Spec RunFacts DetectorFacts MarkFacts GrammarFacts
  CountFacts ProvenanceFacts.

Section Extras.
Context {platformStrategy : IPlatformStrategy}.
Variable processName : jsstring.
Variable platformName : jsstring.
Variable World : Type.
Variable handle : forall X : Type, event X -> World -> X * World.

Lemma detect_run_of_run maxRetries retryDelay w :
  exists result,
    result_of (run handle
                 (detectProcessInfo processName platformName maxRetries retryDelay) w)
    = inr result
    /\ detect_run processName maxRetries retryDelay maxRetries 1
         (steps (trace_of (run handle
            (detectProcessInfo processName platformName maxRetries retryDelay) w)))
         result.
Proof.
  unfold result_of, trace_of.
  apply (@wp_run _ handle _ _
           (fun r t => exists result,
                r = inr result
                /\ detect_run processName maxRetries retryDelay maxRetries 1
                     (steps t) result) w).
  apply attempts_from_run.
Qed.


(** X8: the whole detection, step by step: attempts as in X7, numbered
    from 1; a failed attempt is followed by a delay of [retryDelay] when
    its number is below [maxRetries], and then by the next attempt; the
    first successful attempt ends the run with its credentials; after
    [maxRetries] failed attempts the result is [null]. *)
Theorem detection_step_by_step (maxRetries : nat) (retryDelay : N) (w : World) :
  exists result,
    result_of (run handle
                 (detectProcessInfo processName platformName maxRetries retryDelay) w)
    = inr result
    /\ detect_run processName maxRetries retryDelay maxRetries 1
         (steps (trace_of (run handle
            (detectProcessInfo processName platformName maxRetries retryDelay) w)))
         result.
Proof. apply detect_run_of_run. Qed.

(** X9: in every run, successful or not, with [k] the number of attempts
    started: [k <= maxRetries], the process-listing command ran [k]
    times, the port-listing command at most [k] times, and there were
    [k - 1] delays, each of [retryDelay]; with [maxRetries = 0] nothing is
    run at all. *)
Theorem run_counts (maxRetries : nat) (retryDelay : N) (w : World) :
  let t := trace_of (run handle
             (detectProcessInfo processName platformName maxRetries retryDelay) w) in
  (exists k,
      (k <= maxRetries)%nat
      /\ attempts t = seq 1 k
      /\ delays t = repeat retryDelay (k - 1)
      /\ length (process_listings t) = k
      /\ (length (port_listings t) <= k)%nat)
  /\ (maxRetries = 0%nat -> steps t = []).
Proof.
  intros t. destruct (detect_run_of_run maxRetries retryDelay w) as (result & _ & D).
  fold t in D. split.
  - destruct (detect_run_counts D) as (k & Lk & _ & H); [lia|].
    exists k. split; [exact Lk | exact H].
  - intros ->. inversion D. reflexivity.
Qed.

(** X10: every probe of a run is the request [testPortConnectivity]
    builds (host 127.0.0.1, the fixed path, POST, 2-second bound) for a
    port that a port listing of the same run gave as a candidate, with the
    token parsed from a process listing of the same run. *)
Theorem probes_are_candidates (maxRetries : nat) (retryDelay : N) (w : World)
    (o : RequestOptions) (out : RequestOutcome) :
  let t := trace_of (run handle
             (detectProcessInfo processName platformName maxRetries retryDelay) w) in
  In (o, out) (probes t) -> probe_from processName (steps t) o.
Proof.
  intros t. destruct (detect_run_of_run maxRetries retryDelay w) as (result & _ & D).
  fold t in D. apply (proj1 (detect_run_provenance D)).
Qed.

(** X11: every command of a run is the process-listing command with a
    5-second bound, or the port-listing command, with a 3-second bound,
    for a pid parsed from a process listing of the same run. *)
Theorem commands_are_listings (maxRetries : nat) (retryDelay : N) (w : World)
    (ct : command * N) :
  let t := trace_of (run handle
             (detectProcessInfo processName platformName maxRetries retryDelay) w) in
  In ct (executions_of (steps t)) -> command_from processName (steps t) ct.
Proof.
  intros t. destruct (detect_run_of_run maxRetries retryDelay w) as (result & _ & D).
  fold t in D. apply (proj2 (detect_run_provenance D)).
Qed.

(** X12: with a shipped strategy, two probes made one right after the
    other go to increasing ports: within an attempt the candidates are
    probed in ascending order, none twice. *)
Theorem probes_ascend (maxRetries : nat) (retryDelay : N) (w : World) :
  shipped platformStrategy ->
  Forall increasing
    (adjacent_probes
       (steps (trace_of (run handle
          (detectProcessInfo processName platformName maxRetries retryDelay) w)))).
Proof.
  intros S. destruct (detect_run_of_run maxRetries retryDelay w) as (result & _ & D).
  apply (proj2 (detect_run_order S D)).
Qed.

End Extras.

Lemma run_counts_witness :
  steps (trace_of (run play
           (@detectProcessInfo linux (str "language_server_linux") (str "Linux") 0 2000)
           script_retry)) = [].
Proof.
  apply (proj2 (@run_counts linux (str "language_server_linux") (str "Linux")
                  script play 0%nat 2000 script_retry)).
  reflexivity.
Defined.


Lemma probes_are_candidates_witness :
  probe_from (platformStrategy := linux) (str "language_server_linux")
    (steps (trace_of (run play
       (@detectProcessInfo linux (str "language_server_linux") (str "Linux") 3 2000)
       script_retry)))
    (probe_options (num 9001) (str "ab12cd34-ef56")).
Proof.
  apply (@probes_are_candidates linux (str "language_server_linux") (str "Linux")
           script play 3%nat 2000 script_retry
           (probe_options (num 9001) (str "ab12cd34-ef56")) (Response 200)).
  vm_compute. right. left. reflexivity.
Defined.

Lemma commands_are_listings_witness :
  command_from (platformStrategy := linux) (str "language_server_linux")
    (steps (trace_of (run play
       (@detectProcessInfo linux (str "language_server_linux") (str "Linux") 3 2000)
       script_retry)))
    (LsofOrNetstat (num 4412), 3000).
Proof.
  apply (@commands_are_listings linux (str "language_server_linux") (str "Linux")
           script play 3%nat 2000 script_retry (LsofOrNetstat (num 4412), 3000)).
  vm_compute. right. right. left. reflexivity.
Defined.

Lemma probes_ascend_witness :
  Forall increasing
    (adjacent_probes
       (steps (trace_of (run play
          (@detectProcessInfo linux (str "language_server_linux") (str "Linux") 3 2000)
          script_retry)))).
Proof.
  apply (@probes_ascend linux (str "language_server_linux") (str "Linux")
           script play 3%nat 2000 script_retry).
  left. exists (str "linux"). reflexivity.
Defined.



End DetectorExtras.
